(** * The X-mu library (xmu.py): alpha-cut representation of fuzzy sets

    A shallow embedding of [src/xmu.py] and the properties of its
    specification.

    A float is the rational it denotes ([Q]); the two infinite floats
    are kept apart ([number]).  Arithmetic on floats rounds: to the
    nearest 53-bit number in SymPy's [Float], outwards in mpmath's
    intervals.  The library leans on two external packages: SymPy
    (symbolic expressions and sets) and mpmath (interval arithmetic).
    Only the part of them that [xmu.py] calls is modelled: scalar
    expressions in the shared symbol [ALPHA], set expressions with their
    substitution at a concrete alpha, [Piecewise] functions of [x], and
    the interval primitives behind the operators [+ - * /]. *)

From Stdlib Require Import QArith Qround Qabs Qpower Lqa ZArith Lia Bool List.
Import ListNotations.

Local Open Scope Q_scope.

#[local] Arguments Qle_bool : simpl never.
#[local] Arguments Qeq_bool : simpl never.

(** ** Numbers: a float is a rational or one of the two infinities *)

Inductive number : Type :=
| NegInf
| Fin (q : Q)
| PosInf.

Definition num_leb (x y : number) : bool :=
  match x, y with
  | NegInf, _ => true
  | _, PosInf => true
  | Fin p, Fin q => Qle_bool p q
  | _, _ => false
  end.

Definition num_ltb (x y : number) : bool := negb (num_leb y x).

Definition num_eqb (x y : number) : bool := num_leb x y && num_leb y x.

(** Sign of a number, as mpmath's [mpf_sign]: [Lt] is negative, [Eq] is
    zero, [Gt] is positive. *)
Definition num_sign (x : number) : comparison :=
  match x with
  | NegInf => Lt
  | Fin q => q ?= 0
  | PosInf => Gt
  end.

(** Float arithmetic; [None] is the float [nan]. *)
Definition num_neg (x : number) : number :=
  match x with
  | NegInf => PosInf
  | Fin q => Fin (- q)
  | PosInf => NegInf
  end.

Definition num_add (x y : number) : option number :=
  match x, y with
  | Fin p, Fin q => Some (Fin (p + q))
  | NegInf, PosInf | PosInf, NegInf => None
  | NegInf, _ | _, NegInf => Some NegInf
  | PosInf, _ | _, PosInf => Some PosInf
  end.

Definition num_sub (x y : number) : option number := num_add x (num_neg y).

Definition num_mul (x y : number) : option number :=
  match x, y with
  | Fin p, Fin q => Some (Fin (p * q))
  | _, _ =>
      match num_sign x, num_sign y with
      | Eq, _ | _, Eq => None
      | Lt, Lt | Gt, Gt => Some PosInf
      | _, _ => Some NegInf
      end
  end.

(** Division is only called with a divisor different from 0. *)
Definition num_div (x y : number) : option number :=
  match x, y with
  | Fin p, Fin q => Some (Fin (p / q))
  | Fin _, _ => Some (Fin 0)
  | _, Fin q =>
      match num_sign x, num_sign y with
      | Lt, Lt | Gt, Gt => Some PosInf
      | _, Eq => None
      | _, _ => Some NegInf
      end
  | _, _ => None
  end.

Definition num_min (x y : number) : number := if num_leb x y then x else y.
Definition num_max (x y : number) : number := if num_leb x y then y else x.

(** ** Rounding

    A float has 53 significant bits.  [round53] is rounding to the
    nearest such number, ties to even (the arithmetic of SymPy's [Float]
    and of Python's floats); [floor53] and [ceil53] round down and up
    (the two directed modes of mpmath's intervals).  The exponent is not
    bounded here, as in mpmath; Python's bounded floats come in with
    [python_float]. *)

Definition pow2 (e : Z) : Q := 2 ^ e.

(** [floor(log2 q)], for a positive [q]: the estimate from the sizes of
    numerator and denominator, corrected by one comparison. *)
Definition ilog2 (q : Q) : Z :=
  let e0 := (Z.log2 (Qnum q) - Z.log2 (Zpos (Qden q)))%Z in
  if Qle_bool (pow2 e0) q then e0 else (e0 - 1)%Z.

(** The nearest integer, the even one at a tie. *)
Definition nearest_even (z : Q) : Z :=
  let f := Qfloor z in
  match Qcompare (z - inject_Z f) (1 # 2) with
  | Lt => f
  | Gt => (f + 1)%Z
  | Eq => if Z.even f then f else (f + 1)%Z
  end.

(** A positive [q] scaled to a 53-bit integer, rounded by [r], scaled
    back. *)
Definition round_pos (r : Q -> Z) (q : Q) : Q :=
  let s := (ilog2 q - 52)%Z in
  Qred (inject_Z (r (q / pow2 s)) * pow2 s).

Definition round_signed (rp rn : Q -> Z) (q : Q) : Q :=
  match Qcompare q 0 with
  | Eq => 0
  | Gt => round_pos rp q
  | Lt => - round_pos rn (- q)
  end.

Definition round53 : Q -> Q := round_signed nearest_even nearest_even.
Definition floor53 : Q -> Q := round_signed Qfloor Qceiling.
Definition ceil53 : Q -> Q := round_signed Qceiling Qfloor.

(** Sum and product of two floats. *)
Definition fadd (x y : Q) : Q := round53 (x + y).
Definition fmul (x y : Q) : Q := round53 (x * y).

(** Sum and product of two coefficients of a SymPy expression.  Where a
    term has no float yet, its coefficient is SymPy's integer 0, 1 or
    -1, and arithmetic with these is exact. *)
Definition coef_add (x y : Q) : Q :=
  if Qeq_bool x 0 then y
  else if Qeq_bool y 0 then x
  else fadd x y.

Definition coef_mul (x y : Q) : Q :=
  if Qeq_bool x 0 then 0
  else if Qeq_bool x 1 then y
  else if Qeq_bool x (-1) then - y
  else fmul x y.

(** [float(v)]: the nearest Python float.  Below 2^-1022 the floats are
    the multiples of 2^-1074; from 2^1024 on there is only infinity. *)
Definition python_float (x : number) : number :=
  match x with
  | Fin q =>
      let v :=
        if Qle_bool (pow2 (-1022)) (Qabs q) then round53 q
        else Qred (inject_Z (nearest_even (q * pow2 1074)) * pow2 (-1074)) in
      if Qle_bool (pow2 1024) v then PosInf
      else if Qle_bool v (- pow2 1024) then NegInf
      else Fin v
  | _ => x
  end.

(** A number with its finite value rounded. *)
Definition round_num (f : Q -> Q) (x : number) : number :=
  match x with
  | Fin q => Fin (f q)
  | _ => x
  end.

(** ** Scalar expressions in the symbol ALPHA

    The expressions the library writes: floats, the symbol, sums,
    differences, negations, and products of an expression with a
    float. *)

Inductive Expr : Type :=
| Float (q : Q)
| ALPHA
| Add (e1 e2 : Expr)
| Sub (e1 e2 : Expr)
| Mul (e : Expr) (q : Q)
| Neg (e : Expr).

(** SymPy keeps an expression in a canonical form: here [k*ALPHA + c].
    Like terms are collected when the expression is built, their float
    coefficients added or multiplied as floats. *)
Fixpoint affine (e : Expr) : Q * Q :=
  match e with
  | Float q => (0, q)
  | ALPHA => (1, 0)
  | Add e1 e2 =>
      (coef_add (fst (affine e1)) (fst (affine e2)),
       coef_add (snd (affine e1)) (snd (affine e2)))
  | Sub e1 e2 =>
      (coef_add (fst (affine e1)) (- fst (affine e2)),
       coef_add (snd (affine e1)) (- snd (affine e2)))
  | Mul e1 q => (coef_mul (fst (affine e1)) q, coef_mul (snd (affine e1)) q)
  | Neg e1 => (- fst (affine e1), - snd (affine e1))
  end.

(** [e.subs(ALPHA, alpha)]: without the symbol the expression is the
    number [c]; with it, the product [k*alpha] and then the sum are
    evaluated, as floats. *)
Definition subs_expr (e : Expr) (alpha : Q) : Q :=
  let (k, c) := affine e in
  if Qeq_bool k 0 then c else fadd c (fmul k alpha).

(** An endpoint of an interval: an expression, or one of SymPy's
    infinities [oo] and [-oo]. *)
Inductive Bound : Type :=
| NegativeInfinity
| Finite (e : Expr)
| Infinity.

Definition subs_bound (b : Bound) (alpha : Q) : number :=
  match b with
  | NegativeInfinity => NegInf
  | Finite e => Fin (subs_expr e alpha)
  | Infinity => PosInf
  end.

(** [sympify] of a float. *)
Definition bound_of_number (x : number) : Bound :=
  match x with
  | NegInf => NegativeInfinity
  | Fin q => Finite (Float q)
  | PosInf => Infinity
  end.

(** ** Concrete sets of reals

    After a substitution every endpoint is a number, and SymPy evaluates
    the set: what is left is the empty set, a finite set, one interval or
    a union.  A concrete set is kept as the list of its pieces, in
    increasing order; a point is the closed piece with equal ends. *)

Record piece : Type := mkPiece {
  p_start : number;
  p_left_open : bool;
  p_end : number;
  p_right_open : bool
}.

Definition pieces : Type := list piece.

Definition piece_nonempty (p : piece) : bool :=
  num_ltb (p_start p) (p_end p)
  || (num_eqb (p_start p) (p_end p)
      && negb (p_left_open p) && negb (p_right_open p)).

Definition is_point (p : piece) : bool := num_eqb (p_start p) (p_end p).

Definition mem_piece (p : piece) (x : Q) : bool :=
  (if p_left_open p then num_ltb (p_start p) (Fin x)
   else num_leb (p_start p) (Fin x))
  && (if p_right_open p then num_ltb (Fin x) (p_end p)
      else num_leb (Fin x) (p_end p)).

Definition mem (s : pieces) (x : Q) : bool := existsb (fun p => mem_piece p x) s.

Definition keep_nonempty (s : pieces) : pieces := filter piece_nonempty s.

(** The closed interval of SymPy's [Interval(start, end)] with numeric
    endpoints: empty when [end < start], a single point when they are
    equal. *)
Definition closed (lo hi : number) : pieces :=
  keep_nonempty [mkPiece lo false hi false].

(** The larger of two left ends and the smaller of two right ends; at a
    tie the end is open as soon as one of them is. *)
Definition max_start (p q : piece) : number * bool :=
  if num_ltb (p_start p) (p_start q) then (p_start q, p_left_open q)
  else if num_ltb (p_start q) (p_start p) then (p_start p, p_left_open p)
  else (p_start p, p_left_open p || p_left_open q).

Definition min_end (p q : piece) : number * bool :=
  if num_ltb (p_end p) (p_end q) then (p_end p, p_right_open p)
  else if num_ltb (p_end q) (p_end p) then (p_end q, p_right_open q)
  else (p_end p, p_right_open p || p_right_open q).

Definition inter_piece (p q : piece) : piece :=
  mkPiece (fst (max_start p q)) (snd (max_start p q))
          (fst (min_end p q)) (snd (min_end p q)).

Definition set_intersect (s t : pieces) : pieces :=
  keep_nonempty (flat_map (fun p => map (inter_piece p) t) s).

Definition reals : pieces := [mkPiece NegInf true PosInf true].

Definition complement_piece (p : piece) : pieces :=
  keep_nonempty
    [mkPiece NegInf true (p_start p) (negb (p_left_open p));
     mkPiece (p_end p) (negb (p_right_open p)) PosInf true].

Definition set_complement (s : pieces) : pieces :=
  fold_right (fun p acc => set_intersect (complement_piece p) acc) reals s.

Definition set_union (s t : pieces) : pieces :=
  set_complement (set_intersect (set_complement s) (set_complement t)).

(** [s - t] *)
Definition set_difference (s t : pieces) : pieces :=
  set_intersect s (set_complement t).

(** The class of the evaluated SymPy object. *)
Inductive set_class : Type :=
| cls_EmptySet
| cls_FiniteSet
| cls_Interval
| cls_Union.

Definition class_of (s : pieces) : set_class :=
  match s with
  | [] => cls_EmptySet
  | [p] => if is_point p then cls_FiniteSet else cls_Interval
  | _ => if forallb is_point s then cls_FiniteSet else cls_Union
  end.

Definition is_EmptySet (s : pieces) : bool :=
  match class_of s with cls_EmptySet => true | _ => false end.

Definition is_FiniteSet (s : pieces) : bool :=
  match class_of s with cls_FiniteSet => true | _ => false end.

(** [s.inf] and [s.sup]; only asked of non-empty sets. *)
Definition set_inf (s : pieces) : number :=
  match s with
  | [] => PosInf
  | p :: _ => p_start p
  end.

Definition set_sup (s : pieces) : number := p_end (last s (mkPiece PosInf true NegInf true)).

(** ** Set expressions in ALPHA: the X-mu (alpha-cut) functions *)

Inductive SetExpr : Type :=
| EmptySet
| FiniteSet (x : Bound)
| Interval (start end_ : Bound)
| Intersection (s t : SetExpr)
| Union (s t : SetExpr)
| Complement (s t : SetExpr).

(** [s.subs(ALPHA, float(alpha))] *)
Fixpoint subs (s : SetExpr) (alpha : Q) : pieces :=
  match s with
  | EmptySet => []
  | FiniteSet x => closed (subs_bound x alpha) (subs_bound x alpha)
  | Interval lo hi => closed (subs_bound lo alpha) (subs_bound hi alpha)
  | Intersection a b => set_intersect (subs a alpha) (subs b alpha)
  | Union a b => set_union (subs a alpha) (subs b alpha)
  | Complement a b => set_difference (subs a alpha) (subs b alpha)
  end.

(** [x] lies in the alpha-cut at level [alpha]. *)
Definition contains (s : SetExpr) (alpha x : Q) : bool := mem (subs s alpha) x.

(** SymPy's [Interval(lo, hi)] called on two floats: the object it
    returns is already evaluated. *)
Definition sympy_Interval (lo hi : number) : SetExpr :=
  if num_ltb hi lo then EmptySet
  else if num_eqb lo hi then FiniteSet (bound_of_number hi)
  else Interval (bound_of_number lo) (bound_of_number hi).

(** ** Membership functions: SymPy's [Piecewise] over the symbol [x] *)

Inductive XExpr : Type :=
| XFloat (q : Q)
| X
| XSub (e1 e2 : XExpr)
| XDiv (e1 e2 : XExpr).

(** Value at a point, in exact arithmetic; [None] when a division by
    zero is met.  (SymPy computes with floats; the statements below need
    the constants and the zero divisor only, where the two agree.) *)
Fixpoint eval_xexpr (e : XExpr) (x : Q) : option Q :=
  match e with
  | XFloat q => Some q
  | X => Some x
  | XSub e1 e2 =>
      match eval_xexpr e1 x, eval_xexpr e2 x with
      | Some v1, Some v2 => Some (v1 - v2)
      | _, _ => None
      end
  | XDiv e1 e2 =>
      match eval_xexpr e1 x, eval_xexpr e2 x with
      | Some v1, Some v2 => if Qeq_bool v2 0 then None else Some (v1 / v2)
      | _, _ => None
      end
  end.

(** Guards compare [x] with floats. *)
Inductive Cond : Type :=
| CTrue
| CLt (l r : XExpr)
| CLe (l r : XExpr)
| CGe (l r : XExpr)
| CAnd (c1 c2 : Cond).

Definition compare_with (test : Q -> Q -> bool) (l r : XExpr) (x : Q) : bool :=
  match eval_xexpr l x, eval_xexpr r x with
  | Some v1, Some v2 => test v1 v2
  | _, _ => false
  end.

Definition Qlt_bool (p q : Q) : bool := negb (Qle_bool q p).

Fixpoint eval_cond (c : Cond) (x : Q) : bool :=
  match c with
  | CTrue => true
  | CLt l r => compare_with Qlt_bool l r x
  | CLe l r => compare_with Qle_bool l r x
  | CGe l r => compare_with (fun p q => Qle_bool q p) l r x
  | CAnd c1 c2 => eval_cond c1 x && eval_cond c2 x
  end.

Definition Piecewise : Type := list (XExpr * Cond).

(** Which branch is taken at [x]: the first one whose guard holds. *)
Fixpoint branch_at (p : Piecewise) (x : Q) : option nat :=
  match p with
  | [] => None
  | (_, c) :: rest =>
      if eval_cond c x then Some O else option_map S (branch_at rest x)
  end.

(** Value of the function at [x]: that of the first branch whose guard
    holds. *)
Fixpoint eval_piecewise (p : Piecewise) (x : Q) : option Q :=
  match p with
  | [] => None
  | (e, c) :: rest =>
      if eval_cond c x then eval_xexpr e x else eval_piecewise rest x
  end.

(** ** Calls that return or raise *)

Inductive exn : Type :=
| AttributeError
| ComplexResult
| NotImplementedError
| ValueError.

Inductive outcome (A : Type) : Type :=
| Returned (a : A)
| Raised (e : exn).

Arguments Returned {A} a.
Arguments Raised {A} e.

Definition bind {A B : Type} (m : outcome A) (k : A -> outcome B) : outcome B :=
  match m with
  | Returned a => k a
  | Raised e => Raised e
  end.

Notation "x <- m ;; k" := (bind m (fun x => k))
  (at level 61, m at next level, right associativity).

(** ** class Xmu *)

(** A universe is a SymPy interval object: it has a [start] and an
    [end].  An instance only ever holds such an object ([__init__] fails
    on anything else), and [set_u] is typed accordingly. *)
Record Universe : Type := mkUniverse {
  u_start : Bound;
  u_end : Bound
}.

Definition universe_set (U : Universe) : SetExpr := Interval (u_start U) (u_end U).

(** [u.inf] and [u.sup] of an interval are its endpoints. *)
Definition u_inf (U : Universe) : Bound := u_start U.
Definition u_sup (U : Universe) : Bound := u_end U.

Module Xmu.

(** The attributes [u], [muequals] and [xequals] of an instance.  The
    control points that the shape classes also store are never read
    back and are left out. *)
Record t : Type := mk {
  u : Universe;
  muequals : Piecewise;
  xequals : SetExpr
}.

(** Class attributes: the values an instance starts with. *)
Definition default_muequals : Piecewise := [(XFloat 0, CTrue)].
Definition default_xequals : SetExpr := EmptySet.

(** [u.start] and [u.end]: only an interval object has them. *)
Definition as_universe (s : SetExpr) : outcome Universe :=
  match s with
  | Interval lo hi => Returned (mkUniverse lo hi)
  | _ => Raised AttributeError
  end.

(** [__init__(self, u)]: stores [u], then reads [u.start] and
    [u.end]. *)
Definition __init__ (s : SetExpr) : outcome t :=
  U <- as_universe s ;;
  Returned (mk U default_muequals default_xequals).

Definition set_muequals (self : t) (func : Piecewise) : t :=
  mk (u self) func (xequals self).

Definition get_muequals (self : t) : Piecewise := muequals self.

Definition set_xequals (self : t) (func : SetExpr) : t :=
  mk (u self) (muequals self) func.

Definition get_xequals (self : t) : SetExpr := xequals self.

Definition set_u (self : t) (U : Universe) : t :=
  mk U (muequals self) (xequals self).

End Xmu.

(** ** class BasicXmu *)

Module BasicXmu.

Definition __init__ (s : SetExpr) (func : option SetExpr) : outcome Xmu.t :=
  self <- Xmu.__init__ s ;;
  match func with
  | Some f => Returned (Xmu.set_xequals self f)
  | None => Returned self
  end.

End BasicXmu.

(** ** Set operations of class Xmu *)

(** An expression that holds no symbol: SymPy has it as a number. *)
Definition is_number (e : Expr) : bool := Qeq_bool (fst (affine e)) 0.

Definition bound_is_number (b : Bound) : bool :=
  match b with
  | Finite e => is_number e
  | _ => true
  end.

(** A set whose every endpoint is a number: SymPy evaluates such a set
    when it builds it, to a union of intervals and points. *)
Fixpoint numeric (s : SetExpr) : bool :=
  match s with
  | EmptySet => true
  | FiniteSet x => bound_is_number x
  | Interval lo hi => bound_is_number lo && bound_is_number hi
  | Intersection a b | Union a b | Complement a b => numeric a && numeric b
  end.

(** The object is SymPy's [EmptySet]. *)
Definition evaluates_to_EmptySet (s : SetExpr) : bool :=
  numeric s && is_EmptySet (subs s 0).

Definition bound_eqb (x y : Bound) : bool :=
  match x, y with
  | NegativeInfinity, NegativeInfinity | Infinity, Infinity => true
  | Finite e1, Finite e2 =>
      Qeq_bool (fst (affine e1)) (fst (affine e2))
      && Qeq_bool (snd (affine e1)) (snd (affine e2))
  | _, _ => false
  end.

(** The same object written twice. *)
Fixpoint same_set (s t : SetExpr) : bool :=
  match s, t with
  | EmptySet, EmptySet => true
  | FiniteSet x, FiniteSet y => bound_eqb x y
  | Interval l1 h1, Interval l2 h2 => bound_eqb l1 l2 && bound_eqb h1 h2
  | Intersection a1 b1, Intersection a2 b2
  | Union a1 b1, Union a2 b2
  | Complement a1 b1, Complement a2 b2 => same_set a1 a2 && same_set b1 b2
  | _, _ => false
  end.

(** [s.complement], as far as it matters here: whether SymPy has one.
    An interval has (two rays), a union has when its members have, and
    every evaluated set has.  An intersection that SymPy could not
    evaluate (an end of an operand holds the symbol) has none, and a
    difference of such sets is held as an intersection; a finite set
    with a symbolic element is refused. *)
Fixpoint sympy_complement (s : SetExpr) : outcome unit :=
  if numeric s then Returned tt
  else
    match s with
    | EmptySet | Interval _ _ => Returned tt
    | FiniteSet _ => Raised ValueError
    | Union a b => _ <- sympy_complement a ;; sympy_complement b
    | Intersection a b =>
        if evaluates_to_EmptySet a || evaluates_to_EmptySet b then Returned tt
        else if same_set a b then sympy_complement a
        else Raised NotImplementedError
    | Complement a b =>
        if evaluates_to_EmptySet a then Returned tt
        else if evaluates_to_EmptySet b then sympy_complement a
        else Raised NotImplementedError
    end.

(** [s - t]: SymPy computes [s.intersect(t.complement)]. *)
Definition sympy_sub (s t : SetExpr) : outcome SetExpr :=
  _ <- sympy_complement t ;;
  Returned (Complement s t).

(** [intersectX(self, target)] *)
Definition intersectX (self target : Xmu.t) : outcome Xmu.t :=
  let i1 := Xmu.get_xequals target in
  let i2 := Xmu.get_xequals self in
  BasicXmu.__init__ (universe_set (Xmu.u self)) (Some (Intersection i1 i2)).

(** [differenceX(self, target)]: [result = i2 - i1]. *)
Definition differenceX (self target : Xmu.t) : outcome Xmu.t :=
  let i1 := Xmu.get_xequals target in
  let i2 := Xmu.get_xequals self in
  result <- sympy_sub i2 i1 ;;
  BasicXmu.__init__ (universe_set (Xmu.u self)) (Some result).

(** [unionX(self, target)] *)
Definition unionX (self target : Xmu.t) : outcome Xmu.t :=
  let i1 := Xmu.get_xequals target in
  let i2 := Xmu.get_xequals self in
  BasicXmu.__init__ (universe_set (Xmu.u self)) (Some (Union i1 i2)).

(** [negateX(self)]: [result = self.u - self.get_xequals()]. *)
Definition negateX (self : Xmu.t) : outcome Xmu.t :=
  result <- sympy_sub (universe_set (Xmu.u self)) (Xmu.get_xequals self) ;;
  BasicXmu.__init__ (universe_set (Xmu.u self)) (Some result).

(** ** mpmath's interval type [mpi] and its operators

    An [mpi] is a pair of endpoints [(a, b)].  The operators follow
    mpmath's interval code case by case: the lower end is rounded down
    and the upper end up, and an end that comes out as [nan] (it takes
    an infinite operand) is replaced by the bound the case names. *)

Definition mpi : Type := (number * number)%type.

Definition or_nan (d : number) (o : option number) : number :=
  match o with
  | Some v => v
  | None => d
  end.

(** An end rounded down, an end rounded up; [d] stands in for [nan]. *)
Definition floor_end (d : number) (o : option number) : number :=
  round_num floor53 (or_nan d o).

Definition ceil_end (d : number) (o : option number) : number :=
  round_num ceil53 (or_nan d o).

Definition mpi_add (s t : mpi) : mpi :=
  (floor_end NegInf (num_add (fst s) (fst t)),
   ceil_end PosInf (num_add (snd s) (snd t))).

Definition mpi_sub (s t : mpi) : mpi :=
  (floor_end NegInf (num_sub (fst s) (snd t)),
   ceil_end PosInf (num_sub (snd s) (fst t))).

(** Smallest and largest of four candidates. *)
Definition hull4 (c1 c2 c3 c4 : option number) : mpi :=
  match c1, c2, c3, c4 with
  | Some v1, Some v2, Some v3, Some v4 =>
      (num_min (num_min v1 v2) (num_min v3 v4),
       num_max (num_max v1 v2) (num_max v3 v4))
  | _, _, _, _ => (NegInf, PosInf)
  end.

Definition is_neg (c : comparison) : bool := match c with Lt => true | _ => false end.
Definition is_zero (c : comparison) : bool := match c with Eq => true | _ => false end.
Definition is_pos (c : comparison) : bool := match c with Gt => true | _ => false end.

Definition is_NegInf (x : number) : bool :=
  match x with NegInf => true | _ => false end.

Definition is_PosInf (x : number) : bool :=
  match x with PosInf => true | _ => false end.

Definition mpi_mul (s t : mpi) : mpi :=
  let '(sa, sb) := s in
  let '(ta, tb) := t in
  let sas := num_sign sa in
  let sbs := num_sign sb in
  let tas := num_sign ta in
  let tbs := num_sign tb in
  if is_zero sas && is_zero sbs then
    if is_NegInf ta || is_PosInf tb then (NegInf, PosInf) else (Fin 0, Fin 0)
  else if is_zero tas && is_zero tbs then
    if is_NegInf sa || is_PosInf sb then (NegInf, PosInf) else (Fin 0, Fin 0)
  else if negb (is_neg sas) then
    (* positive * positive *)
    if negb (is_neg tas) then
      (floor_end (Fin 0) (num_mul sa ta), ceil_end PosInf (num_mul sb tb))
    (* positive * negative *)
    else if negb (is_pos tbs) then
      (floor_end NegInf (num_mul sb ta), ceil_end (Fin 0) (num_mul sa tb))
    (* positive * both signs *)
    else
      (floor_end NegInf (num_mul sb ta), ceil_end PosInf (num_mul sb tb))
  else if negb (is_pos sbs) then
    (* negative * positive *)
    if negb (is_neg tas) then
      (floor_end NegInf (num_mul sa tb), ceil_end (Fin 0) (num_mul sb ta))
    (* negative * negative *)
    else if negb (is_pos tbs) then
      (floor_end (Fin 0) (num_mul sb tb), ceil_end PosInf (num_mul sa ta))
    (* negative * both signs *)
    else
      (floor_end NegInf (num_mul sa tb), ceil_end PosInf (num_mul sa ta))
  else
    (* both signs: all four products, compared *)
    let h := hull4 (num_mul sa ta) (num_mul sa tb) (num_mul sb ta) (num_mul sb tb) in
    (round_num floor53 (fst h), round_num ceil53 (snd h)).

Definition mpi_neg (s : mpi) : mpi := (num_neg (snd s), num_neg (fst s)).

(** Division by an interval whose lower end is not negative. *)
Definition mpi_div_nonneg (s t : mpi) : mpi :=
  let '(sa, sb) := s in
  let '(ta, tb) := t in
  if is_zero (num_sign ta) then
    (* division by zero *)
    if is_neg (num_sign sa) && is_pos (num_sign sb) then (NegInf, PosInf)
    else if is_zero (num_sign tb) then (NegInf, PosInf)
    else if negb (is_neg (num_sign sa)) then (floor_end NegInf (num_div sa tb), PosInf)
    else (NegInf, ceil_end PosInf (num_div sb tb))
  else if negb (is_neg (num_sign sa)) then
    (* nonnegative numerator *)
    (floor_end (Fin 0) (num_div sa tb), ceil_end PosInf (num_div sb ta))
  else if negb (is_pos (num_sign sb)) then
    (* nonpositive numerator *)
    (floor_end NegInf (num_div sa ta), ceil_end (Fin 0) (num_div sb tb))
  else
    (* numerator of both signs *)
    (floor_end NegInf (num_div sa ta), ceil_end PosInf (num_div sb ta)).

Definition mpi_div (s t : mpi) : mpi :=
  let '(sa, sb) := s in
  let '(ta, tb) := t in
  if is_zero (num_sign sa) && is_zero (num_sign sb) then
    (* 0 / X *)
    if (is_neg (num_sign ta) && is_pos (num_sign tb))
       || is_zero (num_sign ta) || is_zero (num_sign tb)
    then (NegInf, PosInf)
    else (Fin 0, Fin 0)
  else if is_neg (num_sign ta) && is_pos (num_sign tb) then (NegInf, PosInf)
  else if is_neg (num_sign ta) then mpi_div_nonneg (mpi_neg s) (mpi_neg t)
  else mpi_div_nonneg s t.

(** ** Arithmetic of class Xmu *)

(** [Interval.to_mpi()]: a method of interval objects only. *)
Definition to_mpi (s : pieces) : outcome mpi :=
  match class_of s with
  | cls_Interval => Returned (set_inf s, set_sup s)
  | _ => Raised AttributeError
  end.

(** [arithmeticalOperationX(self, i2, alpha, operation)].  The string
    [operation] names an operator of mpmath's [mpi]; the operator itself
    is passed here. *)
Definition arithmeticalOperationX (self i2 : Xmu.t) (alpha : Q)
    (operation : mpi -> mpi -> outcome mpi) : outcome (option Xmu.t) :=
  let res := subs (Xmu.get_xequals self) alpha in
  let res2 := subs (Xmu.get_xequals i2) alpha in
  if negb (is_EmptySet res) && negb (is_EmptySet res2) then
    result <-
      (if negb (is_FiniteSet res) && negb (is_FiniteSet res2) then
         l <- to_mpi res ;;
         r <- to_mpi res2 ;;
         operation l r
       else
         let res_mpi := (set_inf res, set_sup res) in
         let res2_mpi := (set_inf res2, set_sup res2) in
         operation res_mpi res2_mpi) ;;
    e <- BasicXmu.__init__ (universe_set (Xmu.u self))
           (Some (sympy_Interval (python_float (fst result))
                                 (python_float (snd result)))) ;;
    Returned (Some e)
  else Returned None.

Definition total (f : mpi -> mpi -> mpi) (s t : mpi) : outcome mpi :=
  Returned (f s t).

Definition multiplyX (self i2 : Xmu.t) (alpha : Q) : outcome (option Xmu.t) :=
  arithmeticalOperationX self i2 alpha (total mpi_mul).

Definition addX (self i2 : Xmu.t) (alpha : Q) : outcome (option Xmu.t) :=
  arithmeticalOperationX self i2 alpha (total mpi_add).

Definition subX (self i2 : Xmu.t) (alpha : Q) : outcome (option Xmu.t) :=
  arithmeticalOperationX self i2 alpha (total mpi_sub).

Definition divX (self i2 : Xmu.t) (alpha : Q) : outcome (option Xmu.t) :=
  arithmeticalOperationX self i2 alpha (total mpi_div).

(** [powX]: the operator [**] of [mpi] goes through logarithms and
    exponentials and has no rational model; it is a parameter, and may
    raise (a negative base under a fractional exponent). *)
Definition powX (mpi_pow : mpi -> mpi -> outcome mpi)
    (self i2 : Xmu.t) (alpha : Q) : outcome (option Xmu.t) :=
  arithmeticalOperationX self i2 alpha mpi_pow.

(** ** The four shape classes

    A setter returns the updated instance together with the function it
    has just built, as the Python method updates [self] and returns the
    SymPy object. *)

(** The rising and falling segments shared by the membership functions. *)
Definition rising (a b : Q) : XExpr * Cond :=
  (XDiv (XSub X (XFloat a)) (XFloat (b - a)),
   CAnd (CLt (XFloat a) X) (CLt X (XFloat b))).

Definition falling (c d : Q) : XExpr * Cond :=
  (XDiv (XSub (XFloat d) X) (XFloat (d - c)),
   CAnd (CLt (XFloat c) X) (CLt X (XFloat d))).

(** [(ALPHA*b) - (ALPHA*a) + a] *)
Definition lower_bound (a b : Q) : Expr :=
  Add (Sub (Mul ALPHA b) (Mul ALPHA a)) (Float a).

(** [(-ALPHA*d) + (ALPHA*c) + d] *)
Definition upper_bound (c d : Q) : Expr :=
  Add (Add (Mul (Neg ALPHA) d) (Mul ALPHA c)) (Float d).

Module UpwardGradientXmu.

Definition setMuFunction (self : Xmu.t) (a b : Q) : Xmu.t * Piecewise :=
  let p := [rising a b;
            (XFloat 1, CGe X (XFloat b));
            (XFloat 0, CTrue)] in
  (Xmu.set_muequals self p, p).

Definition setXFunction (self : Xmu.t) (a b : Q) : Xmu.t * SetExpr :=
  let i := Interval (Finite (lower_bound a b)) (u_sup (Xmu.u self)) in
  (Xmu.set_xequals self i, i).

Definition __init__ (u : SetExpr) (a b : option Q) : outcome Xmu.t :=
  self <- Xmu.__init__ u ;;
  match a, b with
  | Some a, Some b =>
      let self := fst (setMuFunction self a b) in
      let self := fst (setXFunction self a b) in
      Returned self
  | _, _ => Returned self
  end.

Definition setAB (self : Xmu.t) (a b : Q) : Xmu.t * (Piecewise * SetExpr) :=
  let '(self, p) := setMuFunction self a b in
  let '(self, i) := setXFunction self a b in
  (self, (p, i)).

End UpwardGradientXmu.

Module DownwardGradientXmu.

Definition setMuFunction (self : Xmu.t) (a b : Q) : Xmu.t * Piecewise :=
  let p := [(XDiv (XSub (XFloat b) X) (XFloat (b - a)),
             CAnd (CLt (XFloat a) X) (CLt X (XFloat b)));
            (XFloat 1, CLe X (XFloat a));
            (XFloat 0, CTrue)] in
  (Xmu.set_muequals self p, p).

Definition setXFunction (self : Xmu.t) (a b : Q) : Xmu.t * SetExpr :=
  let f := upper_bound a b in
  let i := Interval (u_inf (Xmu.u self)) (Finite f) in
  (Xmu.set_xequals self i, i).

Definition __init__ (u : SetExpr) (a b : option Q) : outcome Xmu.t :=
  self <- Xmu.__init__ u ;;
  match a, b with
  | Some a, Some b =>
      let self := fst (setMuFunction self a b) in
      let self := fst (setXFunction self a b) in
      Returned self
  | _, _ => Returned self
  end.

Definition setAB (self : Xmu.t) (a b : Q) : Xmu.t * (Piecewise * SetExpr) :=
  let '(self, p) := setMuFunction self a b in
  let '(self, i) := setXFunction self a b in
  (self, (p, i)).

End DownwardGradientXmu.

Module TrapezoidalXmu.

Definition setMuFunction (self : Xmu.t) (a b c d : Q) : Xmu.t * Piecewise :=
  let p := [rising a b;
            (XFloat 1, CAnd (CLe (XFloat b) X) (CLe X (XFloat c)));
            falling c d;
            (XFloat 0, CTrue)] in
  (Xmu.set_muequals self p, p).

Definition setXFunction (self : Xmu.t) (a b c d : Q) : Xmu.t * SetExpr :=
  let f := lower_bound a b in
  let g := upper_bound c d in
  let i := Interval (Finite f) (Finite g) in
  (Xmu.set_xequals self i, i).

Definition __init__ (u : SetExpr) (a b c d : option Q) : outcome Xmu.t :=
  self <- Xmu.__init__ u ;;
  match a, b, c, d with
  | Some a, Some b, Some c, Some d =>
      let self := fst (setMuFunction self a b c d) in
      let self := fst (setXFunction self a b c d) in
      Returned self
  | _, _, _, _ => Returned self
  end.

Definition setAB (self : Xmu.t) (a b c d : Q) : Xmu.t * (Piecewise * SetExpr) :=
  let '(self, p) := setMuFunction self a b c d in
  let '(self, i) := setXFunction self a b c d in
  (self, (p, i)).

End TrapezoidalXmu.

Module TriangularXmu.

(** The body is the trapezoid's, run with [self.c = b] and
    [self.d = c]. *)
Definition setMuFunction (self : Xmu.t) (a b c : Q) : Xmu.t * Piecewise :=
  let self_a := a in
  let self_b := b in
  let self_c := b in
  let self_d := c in
  let p := [rising self_a self_b;
            (XFloat 1, CAnd (CLe (XFloat self_b) X) (CLe X (XFloat self_c)));
            falling self_c self_d;
            (XFloat 0, CTrue)] in
  (Xmu.set_muequals self p, p).

Definition setXFunction (self : Xmu.t) (a b c : Q) : Xmu.t * SetExpr :=
  let f := lower_bound a b in
  let g := upper_bound b c in
  let i := Interval (Finite f) (Finite g) in
  (Xmu.set_xequals self i, i).

Definition __init__ (u : SetExpr) (a b c : option Q) : outcome Xmu.t :=
  self <- Xmu.__init__ u ;;
  match a, b, c with
  | Some a, Some b, Some c =>
      let self := fst (setMuFunction self a b c) in
      let self := fst (setXFunction self a b c) in
      Returned self
  | _, _, _ => Returned self
  end.

End TriangularXmu.

(** * Properties *)

(** ** Powers of two and exponents *)

Lemma pow2_pos (e : Z) : 0 < pow2 e.
Proof. apply Qpower_0_lt. reflexivity. Qed.

Lemma pow2_plus (a b : Z) : pow2 (a + b) == pow2 a * pow2 b.
Proof. apply Qpower_plus. discriminate. Qed.

Lemma pow2_le (a b : Z) : (a <= b)%Z -> pow2 a <= pow2 b.
Proof. intros H. apply Qpower_le_compat_l; [exact H | discriminate]. Qed.

Lemma pow2_lt (a b : Z) : (a < b)%Z -> pow2 a < pow2 b.
Proof. intros H. apply Qpower_lt_compat_l; [exact H | reflexivity]. Qed.

Lemma pow2_Z (k : Z) : (0 <= k)%Z -> inject_Z (2 ^ k) == pow2 k.
Proof. intros H. now apply Zpower_Qpower. Qed.

Lemma pow2_succ (a : Z) : pow2 (a + 1) == 2 * pow2 a.
Proof. rewrite pow2_plus. change (pow2 1) with 2. ring. Qed.

(** The estimate from the sizes of numerator and denominator is off by
    less than one. *)
Lemma log2_estimate (q : Q) :
  0 < q ->
  let e0 := (Z.log2 (Qnum q) - Z.log2 (Zpos (Qden q)))%Z in
  pow2 (e0 - 1) < q /\ q < pow2 (e0 + 1).
Proof.
  intros Hq e0. destruct q as [n d]. cbn [Qnum Qden] in e0.
  assert (Hn : (0 < n)%Z).
  { unfold Qlt in Hq. cbn in Hq. lia. }
  destruct (Z.log2_spec n Hn) as [N1 N2].
  destruct (Z.log2_spec (Zpos d) (Pos2Z.is_pos d)) as [D1 D2].
  set (ln := Z.log2 n) in *. set (ld := Z.log2 (Zpos d)) in *.
  assert (Ln : (0 <= ln)%Z) by apply Z.log2_nonneg.
  assert (Ld : (0 <= ld)%Z) by apply Z.log2_nonneg.
  assert (Qn1 : pow2 ln <= inject_Z n).
  { rewrite <- pow2_Z by exact Ln. now rewrite <- Zle_Qle. }
  assert (Qn2 : inject_Z n < pow2 (ln + 1)).
  { rewrite <- pow2_Z by lia. rewrite <- Zlt_Qlt. now rewrite <- Z.add_1_r in N2. }
  assert (Qd1 : pow2 ld <= inject_Z (Zpos d)).
  { rewrite <- pow2_Z by exact Ld. now rewrite <- Zle_Qle. }
  assert (Qd2 : inject_Z (Zpos d) < pow2 (ld + 1)).
  { rewrite <- pow2_Z by lia. rewrite <- Zlt_Qlt. now rewrite <- Z.add_1_r in D2. }
  assert (E : n # d == inject_Z n / inject_Z (Zpos d)) by apply Qmake_Qdiv.
  assert (Pd : 0 < inject_Z (Zpos d)) by reflexivity.
  assert (F1 : pow2 (e0 - 1) * pow2 (ld + 1) == pow2 ln).
  { rewrite <- pow2_plus. unfold e0. now replace (ln - ld - 1 + (ld + 1))%Z with ln by lia. }
  assert (F2 : pow2 (e0 + 1) * pow2 ld == pow2 (ln + 1)).
  { rewrite <- pow2_plus. unfold e0. now replace (ln - ld + 1 + ld)%Z with (ln + 1)%Z by lia. }
  pose proof (pow2_pos (e0 - 1)) as P1. pose proof (pow2_pos (e0 + 1)) as P2.
  pose proof (pow2_pos ld) as P3. pose proof (pow2_pos (ld + 1)) as P4.
  rewrite E. split.
  - apply Qlt_shift_div_l; [exact Pd |].
    apply Qlt_le_trans with (pow2 (e0 - 1) * pow2 (ld + 1)).
    + apply Qmult_lt_l; assumption.
    + now rewrite F1.
  - apply Qlt_shift_div_r; [exact Pd |].
    apply Qlt_le_trans with (pow2 (ln + 1)); [exact Qn2 |].
    rewrite <- F2. apply Qmult_le_l; assumption.
Qed.

Lemma ilog2_spec (q : Q) :
  0 < q -> pow2 (ilog2 q) <= q /\ q < pow2 (ilog2 q + 1).
Proof.
  intros Hq. destruct (log2_estimate q Hq) as [L U]. unfold ilog2.
  set (e0 := (Z.log2 (Qnum q) - Z.log2 (Zpos (Qden q)))%Z) in *.
  destruct (Qle_bool (pow2 e0) q) eqn:T.
  - apply Qle_bool_iff in T. split; assumption.
  - split; [apply Qlt_le_weak; exact L |].
    replace (e0 - 1 + 1)%Z with e0 by lia.
    destruct (Qlt_le_dec q (pow2 e0)) as [H | H]; [exact H |].
    apply Qle_bool_iff in H. congruence.
Qed.

(** The exponent is determined by the value. *)
Lemma ilog2_unique (q : Q) (e : Z) :
  pow2 e <= q -> q < pow2 (e + 1) -> ilog2 q = e.
Proof.
  intros L U.
  assert (Hq : 0 < q) by (pose proof (pow2_pos e); lra).
  destruct (ilog2_spec q Hq) as [L' U'].
  assert (A : (e < ilog2 q + 1)%Z).
  { apply (Qpower_lt_compat_l_inv 2); [| reflexivity]. fold (pow2 e). fold (pow2 (ilog2 q + 1)). lra. }
  assert (B : (ilog2 q < e + 1)%Z).
  { apply (Qpower_lt_compat_l_inv 2); [| reflexivity]. fold (pow2 (ilog2 q)). fold (pow2 (e + 1)). lra. }
  lia.
Qed.

Lemma ilog2_mono (x y : Q) : 0 < x -> x <= y -> (ilog2 x <= ilog2 y)%Z.
Proof.
  intros Hx Hxy.
  destruct (ilog2_spec x Hx) as [Lx Ux].
  destruct (ilog2_spec y) as [Ly Uy]; [lra |].
  assert (A : (ilog2 x < ilog2 y + 1)%Z).
  { apply (Qpower_lt_compat_l_inv 2); [| reflexivity].
    fold (pow2 (ilog2 x)). fold (pow2 (ilog2 y + 1)). lra. }
  lia.
Qed.

(** ** Rounding to an integer *)

Definition rounding (r : Q -> Z) : Prop :=
  (forall x y, x <= y -> (r x <= r y)%Z) /\ (forall k, r (inject_Z k) = k).

Lemma Qfloor_rounding : rounding Qfloor.
Proof. split; [apply Qfloor_resp_le | apply Qfloor_Z]. Qed.

Lemma Qceiling_rounding : rounding Qceiling.
Proof. split; [apply Qceiling_resp_le | apply Qceiling_Z]. Qed.

Lemma nearest_even_between (z : Q) :
  (Qfloor z <= nearest_even z <= Qfloor z + 1)%Z.
Proof.
  unfold nearest_even.
  destruct (Qcompare (z - inject_Z (Qfloor z)) (1 # 2));
    [destruct (Z.even (Qfloor z)) | |]; lia.
Qed.

Lemma nearest_even_rounding : rounding nearest_even.
Proof.
  split.
  - intros x y H.
    pose proof (Qfloor_resp_le x y H) as F.
    pose proof (nearest_even_between x) as Bx.
    pose proof (nearest_even_between y) as By.
    destruct (Z.eq_dec (Qfloor x) (Qfloor y)) as [E | N]; [| lia].
    unfold nearest_even. rewrite <- E.
    destruct (Qcompare_spec (x - inject_Z (Qfloor x)) (1 # 2)) as [Cx | Cx | Cx];
      destruct (Qcompare_spec (y - inject_Z (Qfloor x)) (1 # 2)) as [Cy | Cy | Cy];
      try destruct (Z.even (Qfloor x)); try lia; exfalso; lra.
  - intros k. unfold nearest_even. rewrite Qfloor_Z.
    assert (E : inject_Z k - inject_Z k == 0) by ring.
    destruct (Qcompare_spec (inject_Z k - inject_Z k) (1 # 2)) as [C | C | C];
      [exfalso; lra | reflexivity | exfalso; lra].
Qed.

(** ** Rounding a positive number to 53 bits *)

Lemma scaled_range (q : Q) :
  0 < q ->
  inject_Z (2 ^ 52) <= q / pow2 (ilog2 q - 52)
  /\ q / pow2 (ilog2 q - 52) <= inject_Z (2 ^ 53).
Proof.
  intros Hq. destruct (ilog2_spec q Hq) as [L U].
  pose proof (pow2_pos (ilog2 q - 52)) as P.
  rewrite !pow2_Z by lia.
  assert (E1 : pow2 52 * pow2 (ilog2 q - 52) == pow2 (ilog2 q)).
  { rewrite <- pow2_plus. now replace (52 + (ilog2 q - 52))%Z with (ilog2 q) by lia. }
  assert (E2 : pow2 53 * pow2 (ilog2 q - 52) == pow2 (ilog2 q + 1)).
  { rewrite <- pow2_plus. now replace (53 + (ilog2 q - 52))%Z with (ilog2 q + 1)%Z by lia. }
  split.
  - apply Qle_shift_div_l; [exact P |]. now rewrite E1.
  - apply Qle_shift_div_r; [exact P |]. rewrite E2. now apply Qlt_le_weak.
Qed.

Lemma round_pos_value (r : Q -> Z) (q : Q) :
  round_pos r q
  == inject_Z (r (q / pow2 (ilog2 q - 52))) * pow2 (ilog2 q - 52).
Proof. unfold round_pos. apply Qred_correct. Qed.

Lemma round_pos_range (r : Q -> Z) (q : Q) :
  rounding r -> 0 < q ->
  pow2 (ilog2 q) <= round_pos r q <= pow2 (ilog2 q + 1).
Proof.
  intros [Rm Ri] Hq. destruct (scaled_range q Hq) as [L U].
  pose proof (pow2_pos (ilog2 q - 52)) as P.
  rewrite round_pos_value.
  assert (E1 : pow2 52 * pow2 (ilog2 q - 52) == pow2 (ilog2 q)).
  { rewrite <- pow2_plus. now replace (52 + (ilog2 q - 52))%Z with (ilog2 q) by lia. }
  assert (E2 : pow2 53 * pow2 (ilog2 q - 52) == pow2 (ilog2 q + 1)).
  { rewrite <- pow2_plus. now replace (53 + (ilog2 q - 52))%Z with (ilog2 q + 1)%Z by lia. }
  apply Rm in L, U. rewrite Ri in L, U.
  rewrite Zle_Qle in L, U. rewrite pow2_Z in L, U by lia.
  split.
  - rewrite <- E1. apply Qmult_le_compat_r; [exact L | lra].
  - rewrite <- E2. apply Qmult_le_compat_r; [exact U | lra].
Qed.

Lemma round_pos_positive (r : Q -> Z) (q : Q) :
  rounding r -> 0 < q -> 0 < round_pos r q.
Proof.
  intros R Hq. destruct (round_pos_range r q R Hq) as [L _].
  pose proof (pow2_pos (ilog2 q)). lra.
Qed.

Lemma round_pos_mono (r : Q -> Z) (x y : Q) :
  rounding r -> 0 < x -> x <= y -> round_pos r x <= round_pos r y.
Proof.
  intros R Hx Hxy. assert (Hy : 0 < y) by lra.
  pose proof (ilog2_mono x y Hx Hxy) as He.
  destruct (Z.eq_dec (ilog2 x) (ilog2 y)) as [E | N].
  - rewrite !round_pos_value, E.
    pose proof (pow2_pos (ilog2 y - 52)) as P.
    apply Qmult_le_compat_r; [| lra].
    rewrite <- Zle_Qle. apply (proj1 R).
    apply Qmult_le_compat_r; [exact Hxy |].
    apply Qlt_le_weak, Qinv_lt_0_compat, P.
  - destruct (round_pos_range r x R Hx) as [_ U].
    destruct (round_pos_range r y R Hy) as [L _].
    assert (M : pow2 (ilog2 x + 1) <= pow2 (ilog2 y)) by (apply pow2_le; lia).
    lra.
Qed.

(** ** Signed rounding *)

Lemma round_signed_mono (rp rn : Q -> Z) (x y : Q) :
  rounding rp -> rounding rn -> x <= y ->
  round_signed rp rn x <= round_signed rp rn y.
Proof.
  intros Rp Rn H. unfold round_signed.
  destruct (Qcompare_spec x 0) as [Cx | Cx | Cx];
    destruct (Qcompare_spec y 0) as [Cy | Cy | Cy]; try (exfalso; lra).
  - lra.
  - pose proof (round_pos_positive rp y Rp Cy). lra.
  - pose proof (round_pos_positive rn (- x) Rn). lra.
  - assert (M : round_pos rn (- y) <= round_pos rn (- x))
      by (apply round_pos_mono; [exact Rn | lra | lra]).
    lra.
  - pose proof (round_pos_positive rn (- x) Rn).
    pose proof (round_pos_positive rp y Rp Cy). lra.
  - now apply round_pos_mono.
Qed.

Lemma round_pos_floor_near (q : Q) :
  0 < q -> q - q * pow2 (-52) <= round_pos Qfloor q <= q.
Proof.
  intros Hq. rewrite round_pos_value.
  pose proof (pow2_pos (ilog2 q - 52)) as P.
  destruct (ilog2_spec q Hq) as [L _].
  set (s := (ilog2 q - 52)%Z) in *.
  assert (Es : pow2 (ilog2 q) * pow2 (-52) == pow2 s).
  { rewrite <- pow2_plus. now replace (ilog2 q + -52)%Z with s by (unfold s; lia). }
  assert (E : q / pow2 s * pow2 s == q) by (field; lra).
  pose proof (Qfloor_le (q / pow2 s)) as F1.
  pose proof (Qlt_floor (q / pow2 s)) as F2.
  assert (F3 : inject_Z (Qfloor (q / pow2 s) + 1) == inject_Z (Qfloor (q / pow2 s)) + 1).
  { rewrite inject_Z_plus. reflexivity. }
  rewrite F3 in F2.
  assert (U : pow2 s <= q * pow2 (-52)).
  { rewrite <- Es. apply Qmult_le_compat_r; [exact L |]. apply Qlt_le_weak, pow2_pos. }
  split.
  - assert (G : (q / pow2 s - 1) * pow2 s <= inject_Z (Qfloor (q / pow2 s)) * pow2 s).
    { apply Qmult_le_compat_r; lra. }
    assert (G' : (q / pow2 s - 1) * pow2 s == q - pow2 s) by (field; lra).
    lra.
  - rewrite <- E at 2. apply Qmult_le_compat_r; lra.
Qed.

Lemma round_pos_ceiling_near (q : Q) :
  0 < q -> q <= round_pos Qceiling q <= q + q * pow2 (-52).
Proof.
  intros Hq. rewrite round_pos_value.
  pose proof (pow2_pos (ilog2 q - 52)) as P.
  destruct (ilog2_spec q Hq) as [L _].
  set (s := (ilog2 q - 52)%Z) in *.
  assert (Es : pow2 (ilog2 q) * pow2 (-52) == pow2 s).
  { rewrite <- pow2_plus. now replace (ilog2 q + -52)%Z with s by (unfold s; lia). }
  assert (E : q / pow2 s * pow2 s == q) by (field; lra).
  pose proof (Qle_ceiling (q / pow2 s)) as F1.
  pose proof (Qceiling_lt (q / pow2 s)) as F2.
  assert (F3 : inject_Z (Qceiling (q / pow2 s) - 1) == inject_Z (Qceiling (q / pow2 s)) - 1).
  { unfold Z.sub. rewrite inject_Z_plus. reflexivity. }
  rewrite F3 in F2.
  assert (U : pow2 s <= q * pow2 (-52)).
  { rewrite <- Es. apply Qmult_le_compat_r; [exact L |]. apply Qlt_le_weak, pow2_pos. }
  split.
  - rewrite <- E at 1. apply Qmult_le_compat_r; lra.
  - assert (G : inject_Z (Qceiling (q / pow2 s)) * pow2 s <= (q / pow2 s + 1) * pow2 s).
    { apply Qmult_le_compat_r; lra. }
    assert (G' : (q / pow2 s + 1) * pow2 s == q + pow2 s) by (field; lra).
    lra.
Qed.

Lemma floor53_near (q : Q) :
  q - Qabs q * pow2 (-52) <= floor53 q <= q.
Proof.
  unfold floor53, round_signed.
  destruct (Qcompare_spec q 0) as [C | C | C].
  - rewrite C. cbn. split; discriminate.
  - rewrite Qabs_neg by lra.
    destruct (round_pos_ceiling_near (- q)) as [A B]; [lra |].
    split; lra.
  - rewrite Qabs_pos by lra. apply round_pos_floor_near, C.
Qed.

Lemma ceil53_near (q : Q) :
  q <= ceil53 q <= q + Qabs q * pow2 (-52).
Proof.
  unfold ceil53, round_signed.
  destruct (Qcompare_spec q 0) as [C | C | C].
  - rewrite C. cbn. split; discriminate.
  - rewrite Qabs_neg by lra.
    destruct (round_pos_floor_near (- q)) as [A B]; [lra |].
    split; lra.
  - rewrite Qabs_pos by lra. apply round_pos_ceiling_near, C.
Qed.

(** ** The three roundings *)

Lemma round53_mono (x y : Q) : x <= y -> round53 x <= round53 y.
Proof.
  apply round_signed_mono; apply nearest_even_rounding.
Qed.

Lemma floor53_mono (x y : Q) : x <= y -> floor53 x <= floor53 y.
Proof.
  apply round_signed_mono; [apply Qfloor_rounding | apply Qceiling_rounding].
Qed.

Lemma ceil53_mono (x y : Q) : x <= y -> ceil53 x <= ceil53 y.
Proof.
  apply round_signed_mono; [apply Qceiling_rounding | apply Qfloor_rounding].
Qed.

Lemma round53_comp (x y : Q) : x == y -> round53 x == round53 y.
Proof.
  intros E. apply Qle_antisym; apply round53_mono; lra.
Qed.

Lemma round53_zero (q : Q) : q == 0 -> round53 q = 0.
Proof.
  intros E. unfold round53, round_signed.
  apply Qeq_alt in E. now rewrite E.
Qed.

Lemma round53_nonneg (q : Q) : 0 <= q -> 0 <= round53 q.
Proof. intros H. apply (round53_mono 0 q H). Qed.

Lemma round53_nonpos (q : Q) : q <= 0 -> round53 q <= 0.
Proof. intros H. apply (round53_mono q 0 H). Qed.

Lemma round53_opp (q : Q) : round53 (- q) == - round53 q.
Proof.
  unfold round53, round_signed.
  destruct (Qcompare_spec q 0) as [C | C | C];
    destruct (Qcompare_spec (- q) 0) as [C' | C' | C']; try (exfalso; lra).
  - reflexivity.
  - ring.
  - assert (E : round_pos nearest_even (- - q) == round_pos nearest_even q).
    { apply Qle_antisym; apply round_pos_mono;
        try apply nearest_even_rounding; lra. }
    now rewrite E.
Qed.

Lemma fadd_mono (c x y : Q) : x <= y -> fadd c x <= fadd c y.
Proof. intros H. apply round53_mono. lra. Qed.

Lemma fmul_mono (k x y : Q) : 0 <= k -> x <= y -> fmul k x <= fmul k y.
Proof.
  intros Hk H. apply round53_mono.
  rewrite (Qmult_comm k x), (Qmult_comm k y). now apply Qmult_le_compat_r.
Qed.

Lemma fmul_anti (k x y : Q) : k <= 0 -> x <= y -> fmul k y <= fmul k x.
Proof.
  intros Hk H. apply round53_mono.
  assert (E : (- k) * x <= (- k) * y).
  { rewrite (Qmult_comm (- k) x), (Qmult_comm (- k) y).
    apply Qmult_le_compat_r; lra. }
  lra.
Qed.


(** ** Numbers and pieces *)

Lemma num_leb_Fin (p q : Q) : num_leb (Fin p) (Fin q) = true <-> p <= q.
Proof. simpl. apply Qle_bool_iff. Qed.

Lemma num_ltb_Fin (p q : Q) : num_ltb (Fin p) (Fin q) = true <-> p < q.
Proof.
  unfold num_ltb. simpl. rewrite negb_true_iff.
  destruct (Qle_bool q p) eqn:E.
  - apply Qle_bool_iff in E. split; [discriminate | lra].
  - split; [intros _ | reflexivity].
    destruct (Qlt_le_dec p q) as [H | H]; [exact H |].
    apply Qle_bool_iff in H. congruence.
Qed.

Lemma num_ltb_Fin_false (p q : Q) : num_ltb (Fin p) (Fin q) = false <-> q <= p.
Proof.
  unfold num_ltb. simpl. rewrite negb_false_iff. apply Qle_bool_iff.
Qed.

Lemma num_eqb_Fin (p q : Q) : num_eqb (Fin p) (Fin q) = true <-> p == q.
Proof.
  unfold num_eqb. rewrite andb_true_iff, !num_leb_Fin. split; intros; lra.
Qed.

Lemma closed_Fin_nonempty (lo hi : Q) :
  closed (Fin lo) (Fin hi) <> [] <-> lo <= hi.
Proof.
  unfold closed, keep_nonempty, piece_nonempty. simpl filter.
  destruct (num_ltb (Fin lo) (Fin hi)) eqn:L; simpl.
  - apply num_ltb_Fin in L. split; [intros _; lra | discriminate].
  - apply num_ltb_Fin_false in L.
    destruct (num_eqb (Fin lo) (Fin hi)) eqn:E; simpl.
    + apply num_eqb_Fin in E. split; [intros _; lra | discriminate].
    + split; [congruence |]. intros H. exfalso.
      assert (Heq : num_eqb (Fin lo) (Fin hi) = true) by (apply num_eqb_Fin; lra).
      congruence.
Qed.

(** Membership in a closed interval with finite ends. *)
Lemma mem_closed_Fin (lo hi x : Q) :
  mem (closed (Fin lo) (Fin hi)) x = true <-> lo <= x <= hi.
Proof.
  unfold closed, keep_nonempty. simpl filter.
  destruct (piece_nonempty _) eqn:N.
  - simpl. unfold mem_piece. simpl p_left_open. simpl p_right_open. cbv iota.
    rewrite orb_false_r, andb_true_iff. simpl p_start. simpl p_end.
    rewrite !num_leb_Fin. tauto.
  - simpl. split; [discriminate |]. intros [H1 H2]. exfalso.
    assert (Hne : closed (Fin lo) (Fin hi) <> []) by (apply closed_Fin_nonempty; lra).
    apply Hne. unfold closed, keep_nonempty. simpl filter. now rewrite N.
Qed.

(** ** The bounds built by the generators *)

(** A rational that is a float: rounding leaves it as it is. *)
Definition is_float (q : Q) : Prop := round53 q == q.

Lemma fadd_comp (x x' y y' : Q) : x == x' -> y == y' -> fadd x y == fadd x' y'.
Proof. intros Ex Ey. apply round53_comp. now rewrite Ex, Ey. Qed.

Lemma fmul_comp (x x' y y' : Q) : x == x' -> y == y' -> fmul x y == fmul x' y'.
Proof. intros Ex Ey. apply round53_comp. now rewrite Ex, Ey. Qed.

Lemma is_float_opp (q : Q) : is_float q -> is_float (- q).
Proof. unfold is_float. intros H. now rewrite round53_opp, H. Qed.

(** On floats the sum of two coefficients is the rounded sum. *)
Lemma coef_add_float (x y : Q) :
  is_float x -> is_float y -> coef_add x y == round53 (x + y).
Proof.
  unfold coef_add, is_float. intros Hx Hy.
  destruct (Qeq_bool x 0) eqn:Ex.
  - apply Qeq_bool_iff in Ex. rewrite <- Hy at 1. apply round53_comp. lra.
  - destruct (Qeq_bool y 0) eqn:Ey; [| reflexivity].
    apply Qeq_bool_iff in Ey. rewrite <- Hx at 1. apply round53_comp. lra.
Qed.

Lemma coef_add_sign (x y : Q) :
  (0 <= x + y -> 0 <= coef_add x y) /\ (x + y <= 0 -> coef_add x y <= 0).
Proof.
  unfold coef_add.
  destruct (Qeq_bool x 0) eqn:Ex.
  - apply Qeq_bool_iff in Ex. split; intros; lra.
  - destruct (Qeq_bool y 0) eqn:Ey.
    + apply Qeq_bool_iff in Ey. split; intros; lra.
    + split; [apply round53_nonneg | apply round53_nonpos].
Qed.

Lemma coef_add_zero (x y : Q) : x + y == 0 -> Qeq_bool (coef_add x y) 0 = true.
Proof.
  intros E. apply Qeq_bool_iff. unfold coef_add.
  destruct (Qeq_bool x 0) eqn:Ex.
  - apply Qeq_bool_iff in Ex. lra.
  - destruct (Qeq_bool y 0) eqn:Ey.
    + apply Qeq_bool_iff in Ey. lra.
    + unfold fadd. now rewrite (round53_zero _ E).
Qed.

(** The coefficient of ALPHA in a lower and in an upper bound. *)
Definition slope_up (a b : Q) : Q := coef_add b (- a).
Definition slope_down (c d : Q) : Q := coef_add (- d) c.

Lemma affine_lower_bound (a b : Q) :
  affine (lower_bound a b) = (coef_add (slope_up a b) 0, a).
Proof. reflexivity. Qed.

Lemma affine_upper_bound (c d : Q) :
  affine (upper_bound c d) = (coef_add (slope_down c d) 0, d).
Proof. reflexivity. Qed.

Lemma subs_affine (k c alpha : Q) :
  (let (k', c') := (coef_add k 0, c) in
   if Qeq_bool k' 0 then c' else fadd c' (fmul k' alpha))
  = if Qeq_bool k 0 then c else fadd c (fmul k alpha).
Proof.
  unfold coef_add. destruct (Qeq_bool k 0) eqn:E.
  - reflexivity.
  - change (Qeq_bool 0 0) with true. cbv iota. now rewrite E.
Qed.

(** The value of a lower bound: [a] when the symbol has dropped out,
    and else the float [a + k*alpha]. *)
Lemma subs_lower_bound (a b alpha : Q) :
  subs_expr (lower_bound a b) alpha
  = if Qeq_bool (slope_up a b) 0 then a
    else fadd a (fmul (slope_up a b) alpha).
Proof. unfold subs_expr. rewrite affine_lower_bound. apply subs_affine. Qed.

Lemma subs_upper_bound (c d alpha : Q) :
  subs_expr (upper_bound c d) alpha
  = if Qeq_bool (slope_down c d) 0 then d
    else fadd d (fmul (slope_down c d) alpha).
Proof. unfold subs_expr. rewrite affine_upper_bound. apply subs_affine. Qed.

(** With float control points the bounds are the claimed formulas, each
    operation rounded. *)
Lemma bound_float (k k' c alpha : Q) :
  is_float c -> k == k' ->
  (if Qeq_bool k 0 then c else fadd c (fmul k alpha))
  == fadd c (fmul k' alpha).
Proof.
  intros Hc E. destruct (Qeq_bool k 0) eqn:Z.
  - apply Qeq_bool_iff in Z. unfold fadd, fmul.
    assert (F : round53 (k' * alpha) = 0) by (apply round53_zero; rewrite <- E, Z; ring).
    rewrite F. unfold is_float in Hc. rewrite <- Hc at 1.
    apply round53_comp. ring.
  - apply fadd_comp; [reflexivity |]. now apply fmul_comp.
Qed.

Lemma lower_bound_float (a b alpha : Q) :
  is_float a -> is_float b ->
  subs_expr (lower_bound a b) alpha == fadd a (fmul (round53 (b - a)) alpha).
Proof.
  intros Ha Hb. rewrite subs_lower_bound. apply bound_float; [exact Ha |].
  unfold slope_up. rewrite coef_add_float; [reflexivity | exact Hb |].
  now apply is_float_opp.
Qed.

Lemma upper_bound_float (c d alpha : Q) :
  is_float c -> is_float d ->
  subs_expr (upper_bound c d) alpha == fadd d (fmul (round53 (c - d)) alpha).
Proof.
  intros Hc Hd. rewrite subs_upper_bound. apply bound_float; [exact Hd |].
  unfold slope_down. rewrite coef_add_float; [| now apply is_float_opp | exact Hc].
  apply round53_comp. ring.
Qed.

(** A universe interval is accepted by every constructor. *)
Lemma as_universe_set (U : Universe) :
  Xmu.as_universe (universe_set U) = Returned U.
Proof. destruct U; reflexivity. Qed.

Lemma num_leb_trans (x y z : number) :
  num_leb x y = true -> num_leb y z = true -> num_leb x z = true.
Proof.
  destruct x, y, z; simpl; try reflexivity; try discriminate.
  rewrite !Qle_bool_iff. intros; lra.
Qed.

Lemma num_leb_total (x y : number) :
  num_leb x y = false -> num_leb y x = true.
Proof.
  destruct x, y; simpl; try reflexivity; try discriminate.
  intros H. apply Qle_bool_iff.
  destruct (Qlt_le_dec q q0) as [L | L]; [| exact L].
  assert (Hle : Qle_bool q q0 = true) by (apply Qle_bool_iff; lra).
  congruence.
Qed.

(** A closed interval is kept exactly when its ends are in order. *)
Lemma closed_spec (lo hi : number) :
  closed lo hi = if num_leb lo hi then [mkPiece lo false hi false] else [].
Proof.
  unfold closed, keep_nonempty, piece_nonempty, num_ltb, num_eqb. simpl.
  destruct (num_leb lo hi) eqn:L, (num_leb hi lo) eqn:R; simpl; try reflexivity.
  apply num_leb_total in L. congruence.
Qed.

Lemma mem_closed (lo hi : number) (x : Q) :
  mem (closed lo hi) x = true <->
  num_leb lo (Fin x) = true /\ num_leb (Fin x) hi = true.
Proof.
  rewrite closed_spec. destruct (num_leb lo hi) eqn:L.
  - simpl. unfold mem_piece. simpl. now rewrite orb_false_r, andb_true_iff.
  - simpl. split; [discriminate |]. intros [H1 H2].
    rewrite (num_leb_trans _ _ _ H1 H2) in L. discriminate.
Qed.

Lemma subs_bound_number (v : number) (alpha : Q) :
  subs_bound (bound_of_number v) alpha = v.
Proof. destruct v; reflexivity. Qed.

(** One alpha-cut inside another. *)
Definition cut_subset (s : SetExpr) (alpha2 alpha1 : Q) : Prop :=
  forall x, contains s alpha2 x = true -> contains s alpha1 x = true.

(** A universe with numeric endpoints. *)
Definition real_universe (lo hi : number) : Universe :=
  mkUniverse (bound_of_number lo) (bound_of_number hi).

(** ** Shape generators *)

(** The bounds where no operation rounds. *)
Lemma bound_exact (c k alpha : Q) :
  is_float k -> is_float (k * alpha) -> is_float (c + k * alpha) ->
  fadd c (fmul (round53 k) alpha) == c + k * alpha.
Proof.
  unfold is_float, fadd, fmul. intros Hk Hp Hs.
  assert (E : round53 (round53 k * alpha) == k * alpha).
  { transitivity (round53 (k * alpha)); [| exact Hp].
    apply round53_comp. now rewrite Hk. }
  transitivity (round53 (c + k * alpha)); [| exact Hs].
  apply round53_comp. now rewrite E.
Qed.

(** C1, as the code has it. For every universe interval and float
    control points (a <= b <= c <= d included), the trapezoidal generator
    returns an entity whose alpha-cut at every alpha is the closed
    interval from [a + (b-a)*alpha] to [d + (c-d)*alpha], each of the
    three operations of an end rounded to a float; where none of them
    rounds, the ends are alpha*(b-a)+a and d-alpha*(d-c). *)
Theorem trapezoidal_alpha_cut (U : Universe) (a b c d : Q) :
  is_float a -> is_float b -> is_float c -> is_float d ->
  exists e,
    TrapezoidalXmu.__init__ (universe_set U)
      (Some a) (Some b) (Some c) (Some d) = Returned e
    /\ Xmu.get_xequals e
       = Interval (Finite (lower_bound a b)) (Finite (upper_bound c d))
    /\ forall alpha,
         let lo := fadd a (fmul (round53 (b - a)) alpha) in
         let hi := fadd d (fmul (round53 (c - d)) alpha) in
         (forall x, contains (Xmu.get_xequals e) alpha x = true <-> lo <= x <= hi)
         /\ (is_float (b - a) -> is_float ((b - a) * alpha) ->
             is_float (a + (b - a) * alpha) -> lo == alpha * (b - a) + a)
         /\ (is_float (c - d) -> is_float ((c - d) * alpha) ->
             is_float (d + (c - d) * alpha) -> hi == d - alpha * (d - c)).
Proof.
  intros Fa Fb Fc Fd. eexists. split; [| split].
  - unfold TrapezoidalXmu.__init__, Xmu.__init__.
    rewrite as_universe_set. reflexivity.
  - reflexivity.
  - intros alpha lo hi. split; [| split].
    + intros x. unfold contains. cbn [Xmu.get_xequals Xmu.xequals fst
        TrapezoidalXmu.setXFunction Xmu.set_xequals subs subs_bound].
      rewrite mem_closed_Fin.
      rewrite (lower_bound_float a b alpha Fa Fb),
        (upper_bound_float c d alpha Fc Fd).
      reflexivity.
    + intros H1 H2 H3. unfold lo. rewrite bound_exact by assumption. ring.
    + intros H1 H2 H3. unfold hi. rewrite bound_exact by assumption. ring.
Qed.

Lemma trapezoidal_alpha_cut_witness :
  exists e,
    TrapezoidalXmu.__init__ (universe_set (real_universe (Fin 0) (Fin 20)))
      (Some 2) (Some 5) (Some 6) (Some 8) = Returned e
    /\ forall x, contains (Xmu.get_xequals e) (1 # 2) x = true
                 <-> 7 # 2 <= x <= 7.
Proof.
  assert (F2 : is_float 2) by (vm_compute; reflexivity).
  assert (F5 : is_float 5) by (vm_compute; reflexivity).
  assert (F6 : is_float 6) by (vm_compute; reflexivity).
  assert (F8 : is_float 8) by (vm_compute; reflexivity).
  destruct (trapezoidal_alpha_cut (real_universe (Fin 0) (Fin 20)) 2 5 6 8
              F2 F5 F6 F8) as (e & He & _ & H).
  exists e. split; [exact He |]. intros x.
  destruct (H (1 # 2)) as (Hx & _). rewrite Hx.
  assert (Elo : fadd 2 (fmul (round53 (5 - 2)) (1 # 2)) == 7 # 2)
    by (vm_compute; reflexivity).
  assert (Ehi : fadd 8 (fmul (round53 (6 - 8)) (1 # 2)) == 7)
    by (vm_compute; reflexivity).
  rewrite Elo, Ehi. reflexivity.
Defined.

(** C1 fails as stated: with the floats written 0.1 and 0.4, the
    ordered control points (0, 0.1, 0.1, 0.4) and alpha = 1, the claimed
    interval is the point 0.1, while the upper end the code computes,
    0.4 + (0.1 - 0.4), is a float below 0.1: the cut holds no point. *)
Lemma trapezoidal_alpha_cut_counterexample :
  let a := 0 in
  let b := round53 (1 # 10) in
  let d := round53 (4 # 10) in
  (a <= b /\ b <= b /\ b <= d)
  /\ 1 * (b - a) + a <= b <= d - 1 * (d - b)
  /\ exists e,
       TrapezoidalXmu.__init__ (universe_set (real_universe (Fin 0) (Fin 1)))
         (Some a) (Some b) (Some b) (Some d) = Returned e
       /\ subs (Xmu.get_xequals e) 1 = []
       /\ contains (Xmu.get_xequals e) 1 b = false.
Proof.
  intros a b d. split; [| split].
  - repeat split; apply Qle_bool_iff; vm_compute; reflexivity.
  - split; apply Qle_bool_iff; vm_compute; reflexivity.
  - eexists. split; [reflexivity |]. split; vm_compute; reflexivity.
Qed.

(** C7, as the code has it. The triangular generator builds the same
    entity (membership function and alpha-cut function alike) as the
    trapezoidal generator run on (a, b, b, c); with float control points
    its alpha-cut at every alpha is the closed interval from
    [a + (b-a)*alpha] to [c + (b-c)*alpha], each operation rounded to a
    float; where none of them rounds, the ends are alpha*(b-a)+a and
    c-alpha*(c-b). *)
Theorem triangular_is_trapezoidal (u : SetExpr) (U : Universe) (self : Xmu.t)
    (a b c : Q) :
  TriangularXmu.setMuFunction self a b c
  = TrapezoidalXmu.setMuFunction self a b b c
  /\ TriangularXmu.setXFunction self a b c
     = TrapezoidalXmu.setXFunction self a b b c
  /\ TriangularXmu.__init__ u (Some a) (Some b) (Some c)
     = TrapezoidalXmu.__init__ u (Some a) (Some b) (Some b) (Some c)
  /\ exists e,
       TriangularXmu.__init__ (universe_set U) (Some a) (Some b) (Some c)
       = Returned e
       /\ Xmu.get_muequals e = snd (TrapezoidalXmu.setMuFunction self a b b c)
       /\ Xmu.get_xequals e = snd (TrapezoidalXmu.setXFunction self a b b c)
       /\ (is_float a -> is_float b -> is_float c ->
           forall alpha,
             let lo := fadd a (fmul (round53 (b - a)) alpha) in
             let hi := fadd c (fmul (round53 (b - c)) alpha) in
             (forall x, contains (Xmu.get_xequals e) alpha x = true
                        <-> lo <= x <= hi)
             /\ (is_float (b - a) -> is_float ((b - a) * alpha) ->
                 is_float (a + (b - a) * alpha) -> lo == alpha * (b - a) + a)
             /\ (is_float (b - c) -> is_float ((b - c) * alpha) ->
                 is_float (c + (b - c) * alpha) -> hi == c - alpha * (c - b))).
Proof.
  repeat split; try reflexivity.
  eexists. split.
  - unfold TriangularXmu.__init__, Xmu.__init__.
    rewrite as_universe_set. reflexivity.
  - split; [reflexivity | split; [reflexivity |]].
    intros Fa Fb Fc alpha lo hi. split; [| split].
    + intros x. unfold contains.
      cbn [Xmu.get_xequals Xmu.xequals fst TriangularXmu.setXFunction
           Xmu.set_xequals subs subs_bound].
      rewrite mem_closed_Fin.
      rewrite (lower_bound_float a b alpha Fa Fb),
        (upper_bound_float b c alpha Fb Fc).
      reflexivity.
    + intros H1 H2 H3. unfold lo. rewrite bound_exact by assumption. ring.
    + intros H1 H2 H3. unfold hi. rewrite bound_exact by assumption. ring.
Qed.

Lemma triangular_is_trapezoidal_witness :
  exists e,
    TriangularXmu.__init__ (universe_set (real_universe (Fin 0) (Fin 20)))
      (Some 2) (Some 5) (Some 8) = Returned e
    /\ forall x, contains (Xmu.get_xequals e) (1 # 2) x = true
                 <-> 7 # 2 <= x <= 13 # 2.
Proof.
  destruct (triangular_is_trapezoidal EmptySet (real_universe (Fin 0) (Fin 20))
              (Xmu.mk (real_universe (Fin 0) (Fin 20))
                 Xmu.default_muequals Xmu.default_xequals) 2 5 8)
    as (_ & _ & _ & e & He & _ & _ & H).
  exists e. split; [exact He |]. intros x.
  assert (F2 : is_float 2) by (vm_compute; reflexivity).
  assert (F5 : is_float 5) by (vm_compute; reflexivity).
  assert (F8 : is_float 8) by (vm_compute; reflexivity).
  destruct (H F2 F5 F8 (1 # 2)) as (Hx & _).
  rewrite Hx.
  assert (Elo : fadd 2 (fmul (round53 (5 - 2)) (1 # 2)) == 7 # 2)
    by (vm_compute; reflexivity).
  assert (Ehi : fadd 8 (fmul (round53 (5 - 8)) (1 # 2)) == 13 # 2)
    by (vm_compute; reflexivity).
  rewrite Elo, Ehi. reflexivity.
Defined.

(** C7 fails as stated in its last part: for the triangle on the floats
    written 0, 0.1 and 0.4, the claimed interval at alpha = 1 is the
    point 0.1, and the cut the code computes there is empty (its upper
    end 0.4 + (0.1 - 0.4) is a float below 0.1). *)
Lemma triangular_is_trapezoidal_counterexample :
  let a := 0 in
  let b := round53 (1 # 10) in
  let c := round53 (4 # 10) in
  (a <= b /\ b <= c)
  /\ 1 * (b - a) + a <= b <= c - 1 * (c - b)
  /\ exists e,
       TriangularXmu.__init__ (universe_set (real_universe (Fin 0) (Fin 1)))
         (Some a) (Some b) (Some c) = Returned e
       /\ contains (Xmu.get_xequals e) 1 b = false.
Proof.
  intros a b c. split; [| split].
  - split; apply Qle_bool_iff; vm_compute; reflexivity.
  - split; apply Qle_bool_iff; vm_compute; reflexivity.
  - eexists. split; [reflexivity |]. vm_compute. reflexivity.
Qed.

Lemma scale_mono (k alpha1 alpha2 : Q) :
  0 <= k -> alpha1 <= alpha2 -> alpha1 * k <= alpha2 * k.
Proof. intros Hk H. now apply Qmult_le_compat_r. Qed.

(** The two bounds move inwards as alpha grows. *)
Lemma lower_bound_mono (a b alpha1 alpha2 : Q) :
  a <= b -> alpha1 <= alpha2 ->
  subs_expr (lower_bound a b) alpha1 <= subs_expr (lower_bound a b) alpha2.
Proof.
  intros Hab H. rewrite !subs_lower_bound.
  destruct (Qeq_bool (slope_up a b) 0); [lra |].
  apply fadd_mono, fmul_mono; [| exact H].
  apply coef_add_sign. lra.
Qed.

Lemma upper_bound_mono (c d alpha1 alpha2 : Q) :
  c <= d -> alpha1 <= alpha2 ->
  subs_expr (upper_bound c d) alpha2 <= subs_expr (upper_bound c d) alpha1.
Proof.
  intros Hcd H. rewrite !subs_upper_bound.
  destruct (Qeq_bool (slope_down c d) 0); [lra |].
  apply fadd_mono, fmul_anti; [| exact H].
  apply coef_add_sign. lra.
Qed.

(** An interval shrinks when its lower end grows and its upper end
    falls. *)
Lemma closed_shrinks (lo1 lo2 hi1 hi2 : number) (x : Q) :
  num_leb lo1 lo2 = true -> num_leb hi2 hi1 = true ->
  mem (closed lo2 hi2) x = true -> mem (closed lo1 hi1) x = true.
Proof.
  intros Hlo Hhi H. apply mem_closed in H. destruct H as [H1 H2].
  apply mem_closed. split; eapply num_leb_trans; eauto.
Qed.

Lemma num_leb_refl (x : number) : num_leb x x = true.
Proof. destruct x; simpl; try reflexivity. apply Qle_bool_iff. lra. Qed.

(** C5. For each of the four shapes, with its control points in order
    and over a universe with numeric ends, the alpha-cut at alpha2 is a
    subset of the alpha-cut at alpha1 whenever alpha1 < alpha2 (inside
    [0,1] or not). *)
Theorem alpha_cuts_nested (lo hi : number) (a b c d alpha1 alpha2 : Q) :
  alpha1 < alpha2 ->
  let u := universe_set (real_universe lo hi) in
  (a <= b ->
   exists e, UpwardGradientXmu.__init__ u (Some a) (Some b) = Returned e
             /\ cut_subset (Xmu.get_xequals e) alpha2 alpha1)
  /\ (a <= b ->
      exists e, DownwardGradientXmu.__init__ u (Some a) (Some b) = Returned e
                /\ cut_subset (Xmu.get_xequals e) alpha2 alpha1)
  /\ (a <= b -> b <= c -> c <= d ->
      exists e, TrapezoidalXmu.__init__ u (Some a) (Some b) (Some c) (Some d)
                = Returned e
                /\ cut_subset (Xmu.get_xequals e) alpha2 alpha1)
  /\ (a <= b -> b <= c ->
      exists e, TriangularXmu.__init__ u (Some a) (Some b) (Some c) = Returned e
                /\ cut_subset (Xmu.get_xequals e) alpha2 alpha1).
Proof.
  intros Halpha u.
  assert (Hle : alpha1 <= alpha2) by lra.
  repeat split; intros; eexists; (split; [reflexivity |]);
    intros x; unfold contains; cbn [Xmu.get_xequals Xmu.xequals fst
      UpwardGradientXmu.setXFunction DownwardGradientXmu.setXFunction
      TrapezoidalXmu.setXFunction TriangularXmu.setXFunction
      UpwardGradientXmu.setMuFunction DownwardGradientXmu.setMuFunction
      Xmu.set_xequals Xmu.set_muequals Xmu.u subs subs_bound
      u_sup u_inf u_end u_start real_universe];
    rewrite ?subs_bound_number;
    apply closed_shrinks;
    try apply num_leb_refl;
    try (apply num_leb_Fin; apply lower_bound_mono; assumption);
    try (apply num_leb_Fin; apply upper_bound_mono; assumption).
Qed.

Lemma alpha_cuts_nested_witness :
  exists e,
    TrapezoidalXmu.__init__ (universe_set (real_universe (Fin 0) (Fin 20)))
      (Some 2) (Some 5) (Some 6) (Some 8) = Returned e
    /\ cut_subset (Xmu.get_xequals e) 1 (1 # 2).
Proof.
  destruct (alpha_cuts_nested (Fin 0) (Fin 20) 2 5 6 8 (1 # 2) 1) as (_ & _ & H & _).
  - reflexivity.
  - apply H; discriminate.
Defined.

Lemma Qlt_bool_iff (p q : Q) : Qlt_bool p q = true <-> p < q.
Proof. exact (num_ltb_Fin p q). Qed.

(** The guard [a < x < b] of a linear branch. *)
Lemma linear_guard (a b x : Q) :
  eval_cond (CAnd (CLt (XFloat a) X) (CLt X (XFloat b))) x = true
  <-> a < x /\ x < b.
Proof.
  simpl. unfold compare_with. simpl.
  now rewrite andb_true_iff, !Qlt_bool_iff.
Qed.

Lemma linear_guard_degenerate (a b x : Q) :
  a == b -> eval_cond (CAnd (CLt (XFloat a) X) (CLt X (XFloat b))) x = false.
Proof.
  intros E. apply not_true_is_false. rewrite linear_guard. lra.
Qed.

(** C10. With degenerate control points a == b the upward generator
    still returns an entity; its alpha-cut is the constant interval
    [a, sup(universe)] at every alpha; the membership function never
    takes its first (linear) branch, whose expression divides by zero at
    every x, and is the step 0 below b, 1 from b on. *)
Theorem upward_degenerate (lo hi : number) (a b : Q) :
  a == b ->
  exists e,
    UpwardGradientXmu.__init__ (universe_set (real_universe lo hi))
      (Some a) (Some b) = Returned e
    /\ (forall alpha x,
          contains (Xmu.get_xequals e) alpha x = true
          <-> a <= x /\ num_leb (Fin x) hi = true)
    /\ (forall x, branch_at (Xmu.get_muequals e) x <> Some O)
    /\ (forall x, eval_xexpr (fst (rising a b)) x = None)
    /\ (forall x, x < b -> eval_piecewise (Xmu.get_muequals e) x = Some 0)
    /\ (forall x, b <= x -> eval_piecewise (Xmu.get_muequals e) x = Some 1).
Proof.
  intros E. eexists. split; [reflexivity |].
  cbn [Xmu.get_xequals Xmu.get_muequals Xmu.xequals Xmu.muequals fst
       UpwardGradientXmu.setXFunction UpwardGradientXmu.setMuFunction
       Xmu.set_xequals Xmu.set_muequals Xmu.u u_sup u_end real_universe].
  repeat apply conj.
  - intros alpha x. unfold contains. cbn [subs subs_bound].
    rewrite subs_bound_number, mem_closed, num_leb_Fin, subs_lower_bound.
    unfold slope_up. rewrite coef_add_zero by lra. reflexivity.
  - intros x. unfold rising. cbn [branch_at].
    rewrite (linear_guard_degenerate a b x E).
    destruct (eval_cond (CGe X (XFloat b)) x); simpl; discriminate.
  - intros x. unfold rising. cbn [fst eval_xexpr].
    assert (Hz : Qeq_bool (b - a) 0 = true) by (apply Qeq_bool_iff; lra).
    now rewrite Hz.
  - intros x Hx. unfold rising. cbn [eval_piecewise].
    rewrite (linear_guard_degenerate a b x E).
    cbn [eval_cond compare_with eval_xexpr].
    destruct (Qle_bool b x) eqn:L; [| reflexivity].
    apply Qle_bool_iff in L. lra.
  - intros x Hx. unfold rising. cbn [eval_piecewise].
    rewrite (linear_guard_degenerate a b x E).
    cbn [eval_cond compare_with eval_xexpr].
    apply Qle_bool_iff in Hx. now rewrite Hx.
Qed.

Lemma upward_degenerate_witness :
  exists e,
    UpwardGradientXmu.__init__ (universe_set (real_universe (Fin 0) (Fin 10)))
      (Some 5) (Some 5) = Returned e
    /\ (forall x, eval_piecewise (Xmu.get_muequals e) x
                  = if Qle_bool 5 x then Some 1 else Some 0).
Proof.
  destruct (upward_degenerate (Fin 0) (Fin 10) 5 5) as (e & He & _ & _ & _ & H0 & H1).
  - reflexivity.
  - exists e. split; [exact He |]. intros x.
    destruct (Qle_bool 5 x) eqn:L.
    + apply H1. now apply Qle_bool_iff.
    + apply H0. apply Qlt_bool_iff. unfold Qlt_bool. now rewrite L.
Defined.

(** ** Set algebra on concrete sets *)

Lemma Qle_bool_false (p q : Q) : Qle_bool p q = false -> q < p.
Proof.
  intros H. destruct (Qlt_le_dec q p) as [L | L]; [exact L |].
  apply Qle_bool_iff in L. congruence.
Qed.

(** Case analysis on every rational comparison in sight. *)
Ltac qcases :=
  repeat (simpl;
    match goal with
    | E : Qle_bool ?p ?q = _ |- context [Qle_bool ?p ?q] => rewrite E
    | |- context [Qle_bool ?p ?q] => destruct (Qle_bool p q) eqn:?
    end);
  simpl; try reflexivity;
  repeat match goal with
    | E : Qle_bool _ _ = true |- _ => apply Qle_bool_iff in E
    | E : Qle_bool _ _ = false |- _ => apply Qle_bool_false in E
    end;
  try (exfalso; lra).

Definition above (lo : number) (open : bool) (x : Q) : bool :=
  if open then num_ltb lo (Fin x) else num_leb lo (Fin x).

Definition below (hi : number) (open : bool) (x : Q) : bool :=
  if open then num_ltb (Fin x) hi else num_leb (Fin x) hi.

Lemma mem_piece_split (p : piece) (x : Q) :
  mem_piece p x
  = above (p_start p) (p_left_open p) x && below (p_end p) (p_right_open p) x.
Proof. reflexivity. Qed.

Lemma inter_piece_above (p q : piece) (x : Q) :
  above (fst (max_start p q)) (snd (max_start p q)) x
  = above (p_start p) (p_left_open p) x && above (p_start q) (p_left_open q) x.
Proof.
  destruct p as [ps po pe pr], q as [qs qo qe qr].
  unfold max_start, above, num_ltb. cbn [p_start p_left_open].
  destruct ps, qs, po, qo; simpl; qcases.
Qed.

Lemma inter_piece_below (p q : piece) (x : Q) :
  below (fst (min_end p q)) (snd (min_end p q)) x
  = below (p_end p) (p_right_open p) x && below (p_end q) (p_right_open q) x.
Proof.
  destruct p as [ps po pe pr], q as [qs qo qe qr].
  unfold min_end, below, num_ltb. cbn [p_end p_right_open].
  destruct pe, qe, pr, qr; simpl; qcases.
Qed.

Lemma mem_inter_piece (p q : piece) (x : Q) :
  mem_piece (inter_piece p q) x = mem_piece p x && mem_piece q x.
Proof.
  rewrite !mem_piece_split. unfold inter_piece.
  cbn [p_start p_left_open p_end p_right_open].
  rewrite inter_piece_above, inter_piece_below.
  repeat match goal with |- context [above ?a ?b ?c] => generalize (above a b c); intro end.
  repeat match goal with |- context [below ?a ?b ?c] => generalize (below a b c); intro end.
  repeat match goal with b : bool |- _ => destruct b end; reflexivity.
Qed.

(** A piece that holds a point is not empty. *)
Lemma mem_piece_nonempty (p : piece) (x : Q) :
  mem_piece p x = true -> piece_nonempty p = true.
Proof.
  destruct p as [ps po pe pr].
  unfold mem_piece, piece_nonempty, num_eqb, num_ltb.
  cbn [p_start p_left_open p_end p_right_open].
  destruct ps, pe, po, pr; simpl; intros H; try reflexivity; try discriminate;
    revert H; qcases; intros; try discriminate.
Qed.

Lemma mem_keep_nonempty (s : pieces) (x : Q) :
  mem (keep_nonempty s) x = mem s x.
Proof.
  induction s as [| p s IH]; [reflexivity |].
  simpl. destruct (piece_nonempty p) eqn:N; simpl.
  - now rewrite IH.
  - rewrite IH. destruct (mem_piece p x) eqn:M; [| reflexivity].
    apply mem_piece_nonempty in M. congruence.
Qed.

Lemma mem_app (s t : pieces) (x : Q) : mem (s ++ t) x = mem s x || mem t x.
Proof. apply existsb_app. Qed.

Lemma mem_map_inter (p : piece) (t : pieces) (x : Q) :
  mem (map (inter_piece p) t) x = mem_piece p x && mem t x.
Proof.
  induction t as [| q t IH]; simpl.
  - now rewrite andb_false_r.
  - rewrite IH, mem_inter_piece. now rewrite andb_orb_distrib_r.
Qed.

(** Intersection, complement, difference and union of concrete sets are
    the set operations on their points. *)
Lemma mem_set_intersect (s t : pieces) (x : Q) :
  mem (set_intersect s t) x = mem s x && mem t x.
Proof.
  unfold set_intersect. rewrite mem_keep_nonempty.
  induction s as [| p s IH]; [reflexivity |].
  cbn [flat_map]. rewrite mem_app, mem_map_inter, IH. simpl.
  now rewrite andb_orb_distrib_l.
Qed.

Lemma mem_complement_piece (p : piece) (x : Q) :
  mem (complement_piece p) x = negb (mem_piece p x).
Proof.
  unfold complement_piece. rewrite mem_keep_nonempty.
  destruct p as [ps po pe pr]. unfold mem, mem_piece, num_ltb.
  cbn [existsb p_start p_left_open p_end p_right_open].
  destruct ps, pe, po, pr; simpl; qcases.
Qed.

Lemma mem_set_complement (s : pieces) (x : Q) :
  mem (set_complement s) x = negb (mem s x).
Proof.
  induction s as [| p s IH]; [reflexivity |].
  cbn [set_complement fold_right]. fold (set_complement s).
  rewrite mem_set_intersect, mem_complement_piece, IH. simpl.
  now rewrite negb_orb.
Qed.

Lemma mem_set_difference (s t : pieces) (x : Q) :
  mem (set_difference s t) x = mem s x && negb (mem t x).
Proof.
  unfold set_difference. now rewrite mem_set_intersect, mem_set_complement.
Qed.

Lemma mem_set_union (s t : pieces) (x : Q) :
  mem (set_union s t) x = mem s x || mem t x.
Proof.
  unfold set_union.
  rewrite mem_set_complement, mem_set_intersect, !mem_set_complement.
  now rewrite negb_andb, !negb_involutive.
Qed.

(** ** Set operations on entities *)

Lemma BasicXmu_init_universe (U : Universe) (f : SetExpr) :
  BasicXmu.__init__ (universe_set U) (Some f)
  = Returned (Xmu.mk U Xmu.default_muequals f).
Proof. destruct U; reflexivity. Qed.

Lemma sympy_sub_returns (s t : SetExpr) :
  sympy_complement t = Returned tt -> sympy_sub s t = Returned (Complement s t).
Proof. unfold sympy_sub. now intros ->. Qed.


Lemma contains_Complement (s t : SetExpr) (alpha x : Q) :
  contains (Complement s t) alpha x
  = contains s alpha x && negb (contains t alpha x).
Proof. unfold contains. cbn [subs]. apply mem_set_difference. Qed.

Lemma contains_Union (s t : SetExpr) (alpha x : Q) :
  contains (Union s t) alpha x = contains s alpha x || contains t alpha x.
Proof. unfold contains. cbn [subs]. apply mem_set_union. Qed.

Lemma contains_Intersection (s t : SetExpr) (alpha x : Q) :
  contains (Intersection s t) alpha x = contains s alpha x && contains t alpha x.
Proof. unfold contains. cbn [subs]. apply mem_set_intersect. Qed.




(** The cuts of an intersection and of a union. *)
Lemma intersectX_cut (A B : Xmu.t) :
  exists e,
    intersectX A B = Returned e
    /\ forall alpha x,
         contains (Xmu.get_xequals e) alpha x
         = contains (Xmu.get_xequals B) alpha x
           && contains (Xmu.get_xequals A) alpha x.
Proof.
  unfold intersectX. rewrite BasicXmu_init_universe.
  eexists. split; [reflexivity |]. intros alpha x. apply mem_set_intersect.
Qed.

Lemma unionX_cut (A B : Xmu.t) :
  exists e,
    unionX A B = Returned e
    /\ forall alpha x,
         contains (Xmu.get_xequals e) alpha x
         = contains (Xmu.get_xequals B) alpha x
           || contains (Xmu.get_xequals A) alpha x.
Proof.
  unfold unionX. rewrite BasicXmu_init_universe.
  eexists. split; [reflexivity |]. intros alpha x. apply mem_set_union.
Qed.

(** The order of the operands matters: [1,3] minus [2,4] holds 1, and the
    reverse difference does not. *)
Example differenceX_order :
  let U := real_universe (Fin 0) (Fin 10) in
  let A := Xmu.mk U Xmu.default_muequals (Interval (Finite (Float 1)) (Finite (Float 3))) in
  let B := Xmu.mk U Xmu.default_muequals (Interval (Finite (Float 2)) (Finite (Float 4))) in
  (exists e, differenceX A B = Returned e
             /\ contains (Xmu.get_xequals e) (1 # 2) 1 = true)
  /\ (exists e, differenceX B A = Returned e
                /\ contains (Xmu.get_xequals e) (1 # 2) 1 = false).
Proof. split; eexists; split; reflexivity. Qed.

(** ** Arithmetic on entities *)

(** The alpha-cut of an entity at a concrete alpha. *)
Definition cut (A : Xmu.t) (alpha : Q) : pieces := subs (Xmu.get_xequals A) alpha.

(** The entity that wraps a computed interval. *)
Definition wrap (A : Xmu.t) (r : mpi) : Xmu.t :=
  Xmu.mk (Xmu.u A) Xmu.default_muequals (sympy_Interval (fst r) (snd r)).

(** The two ends of a concrete set, as handed to mpmath. *)
Definition ends (s : pieces) : mpi := (set_inf s, set_sup s).

(** The two ends of a computed interval, as Python floats. *)
Definition as_floats (r : mpi) : mpi :=
  (python_float (fst r), python_float (snd r)).

Lemma arithmetical_None_iff (A B : Xmu.t) (alpha : Q)
    (operation : mpi -> mpi -> outcome mpi) :
  arithmeticalOperationX A B alpha operation = Returned None
  <-> is_EmptySet (cut A alpha) = true \/ is_EmptySet (cut B alpha) = true.
Proof.
  unfold arithmeticalOperationX, cut.
  destruct (is_EmptySet (subs (Xmu.get_xequals A) alpha)) eqn:EA; cbn [negb andb].
  - split; [now left | reflexivity].
  - destruct (is_EmptySet (subs (Xmu.get_xequals B) alpha)) eqn:EB; cbn [negb andb].
    + split; [now right | reflexivity].
    + split.
      * intros H. exfalso. revert H.
        match goal with |- bind ?m _ = _ -> _ => destruct m as [r | err] end;
          cbn [bind]; [| discriminate].
        rewrite BasicXmu_init_universe. cbn [bind]. discriminate.
      * intros [H | H]; discriminate.
Qed.

(** Outside the empty set and the unions, the operands reach the operator
    as the pairs of their ends, and its result is wrapped. *)
Lemma arithmetical_not_union (A B : Xmu.t) (alpha : Q)
    (operation : mpi -> mpi -> outcome mpi) :
  is_EmptySet (cut A alpha) = false -> class_of (cut A alpha) <> cls_Union ->
  is_EmptySet (cut B alpha) = false -> class_of (cut B alpha) <> cls_Union ->
  arithmeticalOperationX A B alpha operation
  = (r <- operation (ends (cut A alpha)) (ends (cut B alpha)) ;;
     Returned (Some (wrap A (as_floats r)))).
Proof.
  unfold arithmeticalOperationX, cut, is_EmptySet, is_FiniteSet, to_mpi, ends.
  intros EA UA EB UB.
  destruct (class_of (subs (Xmu.get_xequals A) alpha));
    try discriminate; try congruence;
    destruct (class_of (subs (Xmu.get_xequals B) alpha));
    try discriminate; try congruence; cbn [negb andb bind];
    (destruct (operation _ _) as [r | err]; cbn [bind]; [| reflexivity]);
    rewrite BasicXmu_init_universe; reflexivity.
Qed.

(** The entity built by a generator over a universe interval. *)
Definition blank (U : Universe) : Xmu.t :=
  Xmu.mk U Xmu.default_muequals Xmu.default_xequals.

Definition triangular (U : Universe) (a b c : Q) : Xmu.t :=
  fst (TriangularXmu.setXFunction
         (fst (TriangularXmu.setMuFunction (blank U) a b c)) a b c).

Definition trapezoidal (U : Universe) (a b c d : Q) : Xmu.t :=
  fst (TrapezoidalXmu.setXFunction
         (fst (TrapezoidalXmu.setMuFunction (blank U) a b c d)) a b c d).

Definition upward (U : Universe) (a b : Q) : Xmu.t :=
  fst (UpwardGradientXmu.setXFunction
         (fst (UpwardGradientXmu.setMuFunction (blank U) a b)) a b).

Definition downward (U : Universe) (a b : Q) : Xmu.t :=
  fst (DownwardGradientXmu.setXFunction
         (fst (DownwardGradientXmu.setMuFunction (blank U) a b)) a b).

Lemma triangular_init (U : Universe) (a b c : Q) :
  TriangularXmu.__init__ (universe_set U) (Some a) (Some b) (Some c)
  = Returned (triangular U a b c).
Proof. destruct U; reflexivity. Qed.

Lemma trapezoidal_init (U : Universe) (a b c d : Q) :
  TrapezoidalXmu.__init__ (universe_set U) (Some a) (Some b) (Some c) (Some d)
  = Returned (trapezoidal U a b c d).
Proof. destruct U; reflexivity. Qed.

Lemma upward_init (U : Universe) (a b : Q) :
  UpwardGradientXmu.__init__ (universe_set U) (Some a) (Some b)
  = Returned (upward U a b).
Proof. destruct U; reflexivity. Qed.

Lemma downward_init (U : Universe) (a b : Q) :
  DownwardGradientXmu.__init__ (universe_set U) (Some a) (Some b)
  = Returned (downward U a b).
Proof. destruct U; reflexivity. Qed.



(** With two cuts that are neither empty nor finite sets, one of them a
    union of several pieces, the operands cannot be handed to mpmath. *)
Lemma arithmetical_union (A B : Xmu.t) (alpha : Q)
    (operation : mpi -> mpi -> outcome mpi) :
  is_FiniteSet (cut A alpha) = false -> is_FiniteSet (cut B alpha) = false ->
  is_EmptySet (cut A alpha) = false -> is_EmptySet (cut B alpha) = false ->
  class_of (cut A alpha) = cls_Union \/ class_of (cut B alpha) = cls_Union ->
  arithmeticalOperationX A B alpha operation = Raised AttributeError.
Proof.
  unfold arithmeticalOperationX, cut, is_EmptySet, is_FiniteSet, to_mpi.
  intros FA FB EA EB [U | U];
    destruct (class_of (subs (Xmu.get_xequals A) alpha));
    try discriminate;
    destruct (class_of (subs (Xmu.get_xequals B) alpha));
    try discriminate; reflexivity.
Qed.

(** C2, as the code has it. Each arithmetic operation returns None
    exactly when one of the two alpha-cuts, evaluated at the given alpha,
    is the empty set.  When neither is empty and each is one interval or
    a finite set, addition, subtraction, multiplication and division
    return a new entity, and the power does so whenever mpmath's power
    yields an interval.  When neither is empty nor a finite set and one
    is a union of several pieces, every operation raises the attribute
    error of the union that mpmath cannot take. *)
Theorem arithmetic_None_iff_empty_operand
    (mpi_pow : mpi -> mpi -> outcome mpi) (A B : Xmu.t) (alpha : Q) :
  let empty :=
    is_EmptySet (cut A alpha) = true \/ is_EmptySet (cut B alpha) = true in
  let a := ends (cut A alpha) in
  let b := ends (cut B alpha) in
  (addX A B alpha = Returned None <-> empty)
  /\ (subX A B alpha = Returned None <-> empty)
  /\ (multiplyX A B alpha = Returned None <-> empty)
  /\ (divX A B alpha = Returned None <-> empty)
  /\ (powX mpi_pow A B alpha = Returned None <-> empty)
  /\ (is_EmptySet (cut A alpha) = false -> is_EmptySet (cut B alpha) = false ->
      class_of (cut A alpha) <> cls_Union -> class_of (cut B alpha) <> cls_Union ->
      (exists e, addX A B alpha = Returned (Some e))
      /\ (exists e, subX A B alpha = Returned (Some e))
      /\ (exists e, multiplyX A B alpha = Returned (Some e))
      /\ (exists e, divX A B alpha = Returned (Some e))
      /\ forall r, mpi_pow a b = Returned r ->
                   exists e, powX mpi_pow A B alpha = Returned (Some e))
  /\ (is_EmptySet (cut A alpha) = false -> is_EmptySet (cut B alpha) = false ->
      is_FiniteSet (cut A alpha) = false -> is_FiniteSet (cut B alpha) = false ->
      class_of (cut A alpha) = cls_Union \/ class_of (cut B alpha) = cls_Union ->
      addX A B alpha = Raised AttributeError
      /\ subX A B alpha = Raised AttributeError
      /\ multiplyX A B alpha = Raised AttributeError
      /\ divX A B alpha = Raised AttributeError
      /\ powX mpi_pow A B alpha = Raised AttributeError).
Proof.
  intros empty a b.
  repeat (split; [apply arithmetical_None_iff |]).
  split.
  - intros EA EB UA UB.
    unfold addX, subX, multiplyX, divX, powX.
    rewrite !(arithmetical_not_union A B alpha _ EA UA EB UB).
    repeat split; try (eexists; reflexivity).
    intros r Hr. fold a b. rewrite Hr. eexists. reflexivity.
  - intros EA EB FA FB U.
    unfold addX, subX, multiplyX, divX, powX.
    rewrite !(arithmetical_union A B alpha _ FA FB EA EB U).
    repeat split.
Qed.

Lemma arithmetic_None_iff_empty_operand_witness :
  let U := real_universe (Fin 0) (Fin 40) in
  let A := triangular U 0 10 20 in
  let B := triangular U 5 15 25 in
  exists e, addX A B (1 # 2) = Returned (Some e).
Proof.
  intros U A B.
  apply (arithmetic_None_iff_empty_operand (fun _ _ => Raised ComplexResult)
           A B (1 # 2)); vm_compute; congruence.
Defined.

(** C2 fails as stated: at alpha = 1/2 the union of the triangles on
    (0, 1, 2) and (4, 5, 6) has the cut [0.5, 1.5] u [4.5, 5.5]; neither
    it nor the cut of the first triangle is empty, and the addition
    returns no entity: it raises. *)
Lemma arithmetic_None_iff_empty_operand_counterexample :
  let U := real_universe (Fin 0) (Fin 40) in
  let T1 := triangular U 0 1 2 in
  let T2 := triangular U 4 5 6 in
  0 <= 1 # 2 <= 1
  /\ exists Un,
    unionX T1 T2 = Returned Un
    /\ is_EmptySet (cut Un (1 # 2)) = false
    /\ is_EmptySet (cut T1 (1 # 2)) = false
    /\ addX Un T1 (1 # 2) = Raised AttributeError
    /\ forall e, addX Un T1 (1 # 2) <> Returned (Some e).
Proof.
  intros U T1 T2.
  split; [split; apply Qle_bool_iff; reflexivity |].
  set (Un := Xmu.mk U Xmu.default_muequals
               (Union (Xmu.get_xequals T2) (Xmu.get_xequals T1))).
  exists Un. split; [reflexivity |].
  assert (R : addX Un T1 (1 # 2) = Raised AttributeError)
    by (vm_compute; reflexivity).
  split; [vm_compute; reflexivity |].
  split; [vm_compute; reflexivity |].
  split; [exact R |]. intros e. rewrite R. discriminate.
Qed.

(** ** Division by an interval that contains 0 *)

Lemma num_sign_neg (t : number) : num_sign (num_neg t) = CompOpp (num_sign t).
Proof.
  destruct t as [| q |]; try reflexivity. simpl.
  destruct (Qcompare_spec q 0) as [E | L | G];
    destruct (Qcompare_spec (- q) 0) as [E' | L' | G'];
    try reflexivity; exfalso; lra.
Qed.

Lemma num_sign_nonpos (t : number) :
  num_leb t (Fin 0) = true -> num_sign t <> Gt.
Proof.
  destruct t as [| q |]; simpl; try discriminate.
  intros H. apply Qle_bool_iff in H.
  destruct (Qcompare_spec q 0); try discriminate. lra.
Qed.

Lemma num_sign_nonneg (t : number) :
  num_leb (Fin 0) t = true -> num_sign t <> Lt.
Proof.
  destruct t as [| q |]; simpl; try discriminate.
  intros H. apply Qle_bool_iff in H.
  destruct (Qcompare_spec q 0); try discriminate. lra.
Qed.

Definition unbounded (r : mpi) : Prop := fst r = NegInf \/ snd r = PosInf.

(** mpmath's quotient by an interval that starts at 0 is unbounded. *)
Lemma mpi_div_nonneg_zero (s : mpi) (ta tb : number) :
  num_sign ta = Eq -> unbounded (mpi_div_nonneg s (ta, tb)).
Proof.
  intros Z. destruct s as [sa sb]. unfold mpi_div_nonneg, unbounded. rewrite Z.
  cbn [is_zero].
  destruct (is_neg (num_sign sa) && is_pos (num_sign sb)); [now left |].
  destruct (is_zero (num_sign tb)); [now left |].
  destruct (negb (is_neg (num_sign sa))); [now right | now left].
Qed.

(** mpmath's quotient by an interval that contains 0 is unbounded. *)
Lemma mpi_div_by_zero (s : mpi) (ta tb : number) :
  num_leb ta (Fin 0) = true -> num_leb (Fin 0) tb = true ->
  unbounded (mpi_div s (ta, tb)).
Proof.
  intros Ha Hb. apply num_sign_nonpos in Ha. apply num_sign_nonneg in Hb.
  destruct s as [sa sb]. unfold mpi_div.
  destruct (is_zero (num_sign sa) && is_zero (num_sign sb)).
  - destruct (num_sign ta) eqn:A, (num_sign tb) eqn:B; try congruence;
      cbn; now left.
  - destruct (num_sign ta) eqn:A; try congruence; cbn [is_neg is_pos andb].
    + now apply mpi_div_nonneg_zero.
    + destruct (num_sign tb) eqn:B; try congruence; cbn [is_pos].
      * apply mpi_div_nonneg_zero. cbn [mpi_neg fst snd].
        now rewrite num_sign_neg, B.
      * now left.
Qed.

Lemma mem_piece_bounds (p : piece) (x : Q) :
  mem_piece p x = true ->
  num_leb (p_start p) (Fin x) = true /\ num_leb (Fin x) (p_end p) = true.
Proof.
  unfold mem_piece, num_ltb. intros H. apply andb_true_iff in H.
  destruct H as [H1 H2]. split.
  - destruct (p_left_open p); [| exact H1].
    apply negb_true_iff in H1. now apply num_leb_total.
  - destruct (p_right_open p); [| exact H2].
    apply negb_true_iff in H2. now apply num_leb_total.
Qed.

Lemma ends_single (p : piece) : ends [p] = (p_start p, p_end p).
Proof. reflexivity. Qed.

Lemma single_piece_class (p : piece) :
  is_EmptySet [p] = false /\ class_of [p] <> cls_Union.
Proof.
  unfold is_EmptySet, class_of. destruct (is_point p); split; congruence.
Qed.

(** An infinite end stays infinite as a Python float. *)
Lemma as_floats_unbounded (r : mpi) : unbounded r -> unbounded (as_floats r).
Proof.
  unfold unbounded, as_floats. cbn [fst snd].
  intros [H | H]; rewrite H; [now left | now right].
Qed.

(** C3, as the code has it. When both alpha-cuts at alpha are a single
    interval or point and B's contains 0, divX does not return None: it
    returns a new entity that wraps mpmath's quotient, an interval with
    an infinite endpoint. *)
Theorem divX_by_zero_is_unbounded (A B : Xmu.t) (alpha : Q) (p q : piece) :
  cut A alpha = [p] -> cut B alpha = [q] ->
  contains (Xmu.get_xequals B) alpha 0 = true ->
  exists r,
    divX A B alpha = Returned (Some (wrap A r))
    /\ Xmu.get_xequals (wrap A r) = sympy_Interval (fst r) (snd r)
    /\ unbounded r.
Proof.
  intros HA HB H0.
  exists (as_floats (mpi_div (ends (cut A alpha)) (ends (cut B alpha)))).
  split; [| split].
  - unfold divX. rewrite arithmetical_not_union; [reflexivity | | | |];
      rewrite ?HA, ?HB; apply single_piece_class.
  - reflexivity.
  - apply as_floats_unbounded.
    unfold contains in H0. fold (cut B alpha) in H0. rewrite HB in *.
    cbn [mem existsb] in H0. rewrite orb_false_r in H0.
    apply mem_piece_bounds in H0. destruct H0 as [L R].
    rewrite ends_single. now apply mpi_div_by_zero.
Qed.

Definition universe_pm10 : Universe := real_universe (Fin (-10)) (Fin 10).

Lemma divX_by_zero_is_unbounded_witness :
  exists r,
    divX (triangular universe_pm10 1 2 3) (triangular universe_pm10 (-1) 0 1) (1 # 2)
    = Returned (Some (wrap (triangular universe_pm10 1 2 3) r))
    /\ unbounded r.
Proof.
  edestruct (divX_by_zero_is_unbounded
               (triangular universe_pm10 1 2 3)
               (triangular universe_pm10 (-1) 0 1) (1 # 2))
    as (r & Hr & _ & Hu).
  - cbv. reflexivity.
  - cbv. reflexivity.
  - vm_compute. reflexivity.
  - exists r. split; assumption.
Defined.

(** C3 fails as stated: B's alpha-cut at 1/2 is [-1/2, 1/2], which is not
    empty and contains 0, and divX returns an entity whose interval is
    (-oo, oo), not None. *)
Lemma divX_by_zero_counterexample :
  let A := triangular universe_pm10 1 2 3 in
  let B := triangular universe_pm10 (-1) 0 1 in
  is_EmptySet (cut A (1 # 2)) = false
  /\ is_EmptySet (cut B (1 # 2)) = false
  /\ contains (Xmu.get_xequals B) (1 # 2) 0 = true
  /\ divX A B (1 # 2)
     = Returned (Some (Xmu.mk universe_pm10 Xmu.default_muequals
                         (Interval NegativeInfinity Infinity)))
  /\ divX A B (1 # 2) <> Returned None.
Proof.
  intros A B. repeat split; try reflexivity. vm_compute. discriminate.
Qed.

(** ** Addition followed by subtraction *)

Lemma keep_nonempty_In (p : piece) (l : pieces) :
  In p (keep_nonempty l) -> piece_nonempty p = true.
Proof. intros H. apply filter_In in H. tauto. Qed.

Lemma set_complement_nonempty (p : piece) (s : pieces) :
  In p (set_complement s) -> piece_nonempty p = true.
Proof.
  destruct s as [| h s]; cbn [set_complement fold_right].
  - intros [<- | []]. reflexivity.
  - apply keep_nonempty_In.
Qed.

(** Every piece of an evaluated alpha-cut holds a point or an interval:
    none is empty. *)
Lemma subs_nonempty (s : SetExpr) (alpha : Q) (p : piece) :
  In p (subs s alpha) -> piece_nonempty p = true.
Proof.
  destruct s; cbn [subs]; try apply keep_nonempty_In.
  - intros [].
  - apply set_complement_nonempty.
Qed.

Lemma nonempty_Fin (p : piece) (l h : Q) :
  piece_nonempty p = true -> p_start p = Fin l -> p_end p = Fin h -> l <= h.
Proof.
  unfold piece_nonempty. intros N Hs He. rewrite Hs, He in N.
  apply orb_true_iff in N. destruct N as [N | N].
  - apply num_ltb_Fin in N. lra.
  - apply andb_true_iff in N. destruct N as [N _].
    apply andb_true_iff in N. destruct N as [N _].
    apply num_eqb_Fin in N. lra.
Qed.

(** What SymPy's [Interval(l, h)] of two floats evaluates to. *)
Lemma sympy_Interval_cut (l h alpha : Q) :
  l <= h ->
  exists l', l' == l
    /\ subs (sympy_Interval (Fin l) (Fin h)) alpha
       = [mkPiece (Fin l') false (Fin h) false].
Proof.
  intros H. unfold sympy_Interval.
  assert (L : num_ltb (Fin h) (Fin l) = false) by (apply num_ltb_Fin_false; lra).
  rewrite L. destruct (num_eqb (Fin l) (Fin h)) eqn:E.
  - apply num_eqb_Fin in E. exists h. split; [lra |].
    cbn [subs bound_of_number subs_bound].
    change (subs_expr (Float h) alpha) with h.
    rewrite closed_spec, num_leb_refl. reflexivity.
  - exists l. split; [reflexivity |].
    cbn [subs bound_of_number subs_bound].
    change (subs_expr (Float h) alpha) with h.
    change (subs_expr (Float l) alpha) with l.
    rewrite closed_spec.
    assert (Hle : num_leb (Fin l) (Fin h) = true) by now apply num_leb_Fin.
    now rewrite Hle.
Qed.

Lemma contains_sympy_Interval (l h alpha x : Q) :
  contains (sympy_Interval (Fin l) (Fin h)) alpha x = true <-> l <= x <= h.
Proof.
  unfold contains. destruct (Qlt_le_dec h l) as [Hlt | Hle].
  - unfold sympy_Interval.
    assert (L : num_ltb (Fin h) (Fin l) = true) by now apply num_ltb_Fin.
    rewrite L. cbn. split; [discriminate | intros; lra].
  - destruct (sympy_Interval_cut l h alpha Hle) as (l' & El & ->).
    cbn [mem existsb]. rewrite orb_false_r. unfold mem_piece.
    cbn [p_start p_end p_left_open p_right_open].
    rewrite andb_true_iff, !num_leb_Fin. rewrite El. reflexivity.
Qed.

(** Rounding sees the value of a rational, not the way it is written. *)
Lemma ilog2_comp (q q' : Q) : 0 < q -> q == q' -> ilog2 q = ilog2 q'.
Proof.
  intros Hq E. destruct (ilog2_spec q Hq) as [L U].
  symmetry. apply ilog2_unique; now rewrite <- E.
Qed.

Lemma round_pos_eq (r : Q -> Z) (q q' : Q) :
  (forall x y, x == y -> r x = r y) -> 0 < q -> q == q' ->
  round_pos r q = round_pos r q'.
Proof.
  intros Hr Hq E. unfold round_pos. rewrite <- (ilog2_comp q q' Hq E).
  rewrite (Hr (q / pow2 (ilog2 q - 52)) (q' / pow2 (ilog2 q - 52)))
    by (unfold Qdiv; apply Qmult_comp; [exact E | reflexivity]).
  reflexivity.
Qed.

Lemma round_signed_eq (rp rn : Q -> Z) (q q' : Q) :
  (forall x y, x == y -> rp x = rp y) -> (forall x y, x == y -> rn x = rn y) ->
  q == q' -> round_signed rp rn q = round_signed rp rn q'.
Proof.
  intros Hp Hn E. unfold round_signed.
  assert (C : Qcompare q 0 = Qcompare q' 0) by now rewrite E.
  rewrite <- C. destruct (Qcompare_spec q 0) as [Z | Z | Z].
  - reflexivity.
  - f_equal. apply round_pos_eq; [exact Hn | lra | now rewrite E].
  - apply round_pos_eq; [exact Hp | exact Z | exact E].
Qed.

Lemma floor53_eq (q q' : Q) : q == q' -> floor53 q = floor53 q'.
Proof.
  apply round_signed_eq; intros x y E; [now rewrite E | now rewrite E].
Qed.

Lemma ceil53_eq (q q' : Q) : q == q' -> ceil53 q = ceil53 q'.
Proof.
  apply round_signed_eq; intros x y E; [now rewrite E | now rewrite E].
Qed.

(** A rational that [float()] gives back as it is: a float within the
    range of Python's floats. *)
Definition exact_float (v : Q) : Prop := python_float (Fin v) = Fin v.

(** C4, as the code has it. Adding B to A and then subtracting B again
    (all at the same alpha, on cuts that are single bounded intervals
    [la, ha] and [lb, hb], the four computed ends within the range of
    Python's floats) yields, within floating tolerance, the interval
    [la - (hb - lb), ha + (hb - lb)]: A's cut widened on each side by
    the width of B's cut.  Each end is computed in two operations
    rounded outwards, so the result holds that interval, hence A's cut,
    and exceeds it by at most a relative error of 2^-52 per operation. *)
Theorem add_then_sub_widens (A B : Xmu.t) (alpha : Q) (p q : piece)
    (la ha lb hb : Q) :
  cut A alpha = [p] -> p_start p = Fin la -> p_end p = Fin ha ->
  cut B alpha = [q] -> p_start q = Fin lb -> p_end q = Fin hb ->
  let s_lo := floor53 (la + lb) in
  let s_hi := ceil53 (ha + hb) in
  let r_lo := floor53 (s_lo - hb) in
  let r_hi := ceil53 (s_hi - lb) in
  exact_float s_lo -> exact_float s_hi -> exact_float r_lo -> exact_float r_hi ->
  exists S R,
    addX A B alpha = Returned (Some S)
    /\ subX S B alpha = Returned (Some R)
    /\ (forall level x, contains (Xmu.get_xequals R) level x = true
                        <-> r_lo <= x <= r_hi)
    /\ (r_lo <= la - (hb - lb) /\ ha + (hb - lb) <= r_hi)
    /\ (la - (hb - lb) - (Qabs (la + lb) + Qabs (s_lo - hb)) * pow2 (-52) <= r_lo
        /\ r_hi <= ha + (hb - lb) + (Qabs (ha + hb) + Qabs (s_hi - lb)) * pow2 (-52))
    /\ (forall x, contains (Xmu.get_xequals A) alpha x = true ->
                  contains (Xmu.get_xequals R) alpha x = true).
Proof.
  intros HA Hpl Hph HB Hql Hqh s_lo s_hi r_lo r_hi Fs_lo Fs_hi Fr_lo Fr_hi.
  assert (Na : la <= ha).
  { apply (nonempty_Fin p); trivial.
    apply (subs_nonempty (Xmu.get_xequals A) alpha). fold (cut A alpha).
    rewrite HA. now left. }
  assert (Nb : lb <= hb).
  { apply (nonempty_Fin q); trivial.
    apply (subs_nonempty (Xmu.get_xequals B) alpha). fold (cut B alpha).
    rewrite HB. now left. }
  destruct (floor53_near (la + lb)) as [S1 S2]. fold s_lo in S1, S2.
  destruct (ceil53_near (ha + hb)) as [S3 S4]. fold s_hi in S3, S4.
  destruct (floor53_near (s_lo - hb)) as [R1 R2]. fold r_lo in R1, R2.
  destruct (ceil53_near (s_hi - lb)) as [R3 R4]. fold r_hi in R3, R4.
  destruct (sympy_Interval_cut s_lo s_hi alpha) as (l' & El & HS); [lra |].
  set (S := wrap A (as_floats (mpi_add (ends (cut A alpha)) (ends (cut B alpha))))).
  assert (HcutS : cut S alpha = [mkPiece (Fin l') false (Fin s_hi) false]).
  { unfold S, wrap, as_floats. rewrite HA, HB, !ends_single. unfold cut.
    cbn [Xmu.get_xequals Xmu.xequals].
    rewrite Hpl, Hph, Hql, Hqh.
    cbn [mpi_add floor_end ceil_end num_add or_nan round_num fst snd].
    fold s_lo s_hi. unfold exact_float in Fs_lo, Fs_hi.
    rewrite Fs_lo, Fs_hi. exact HS. }
  set (R := wrap S (as_floats (mpi_sub (ends (cut S alpha)) (ends (cut B alpha))))).
  assert (HR : forall level x, contains (Xmu.get_xequals R) level x = true
                               <-> r_lo <= x <= r_hi).
  { intros level x. unfold R, wrap, as_floats. rewrite HcutS, HB, !ends_single.
    cbn [Xmu.get_xequals Xmu.xequals p_start p_end].
    rewrite Hql, Hqh.
    cbn [mpi_sub floor_end ceil_end num_sub num_neg num_add or_nan round_num
         fst snd].
    rewrite (floor53_eq (l' + - hb) (s_lo - hb)) by (rewrite El; reflexivity).
    fold r_lo. change (ceil53 (s_hi + - lb)) with r_hi.
    unfold exact_float in Fr_lo, Fr_hi. rewrite Fr_lo, Fr_hi.
    apply contains_sympy_Interval. }
  exists S, R. repeat apply conj.
  - unfold addX. rewrite arithmetical_not_union; [reflexivity | | | |];
      rewrite ?HA, ?HB; apply single_piece_class.
  - unfold subX. rewrite arithmetical_not_union; [reflexivity | | | |];
      rewrite ?HcutS, ?HB; apply single_piece_class.
  - exact HR.
  - lra.
  - lra.
  - lra.
  - lra.
  - intros x Hx. apply HR. unfold contains in Hx. fold (cut A alpha) in Hx.
    rewrite HA in Hx. cbn [mem existsb] in Hx. rewrite orb_false_r in Hx.
    apply mem_piece_bounds in Hx. rewrite Hpl, Hph in Hx.
    destruct Hx as [H1 H2]. apply num_leb_Fin in H1, H2. lra.
Qed.

Definition universe_0_40 : Universe := real_universe (Fin 0) (Fin 40).

Lemma add_then_sub_widens_witness :
  exists S R,
    addX (triangular universe_0_40 0 10 20) (triangular universe_0_40 5 15 25) (1 # 2)
    = Returned (Some S)
    /\ subX S (triangular universe_0_40 5 15 25) (1 # 2) = Returned (Some R)
    /\ (forall x, contains (Xmu.get_xequals R) (1 # 2) x = true
                  <-> -5 <= x <= 25).
Proof.
  edestruct (add_then_sub_widens
               (triangular universe_0_40 0 10 20)
               (triangular universe_0_40 5 15 25) (1 # 2))
    as (S & R & HS & HR & Hcut & _).
  - vm_compute. reflexivity.
  - vm_compute. reflexivity.
  - vm_compute. reflexivity.
  - vm_compute. reflexivity.
  - vm_compute. reflexivity.
  - vm_compute. reflexivity.
  - vm_compute. reflexivity.
  - vm_compute. reflexivity.
  - vm_compute. reflexivity.
  - vm_compute. reflexivity.
  - exists S, R. split; [exact HS | split; [exact HR |]].
    intros x. rewrite Hcut.
    assert (Elo : floor53 (floor53 (5 + 10) - 20) == -5)
      by (vm_compute; reflexivity).
    assert (Ehi : ceil53 (ceil53 (15 + 20) - 10) == 25)
      by (vm_compute; reflexivity).
    rewrite Elo, Ehi. reflexivity.
Defined.

(** C4 fails as stated: with A's cut [5, 15] and B's cut [10, 20] at
    alpha = 1/2, adding B and subtracting it again gives [-5, 25], which
    holds 0 and 25 while A's cut holds neither: the two intervals differ
    by 10 at each end, no floating tolerance. *)
Lemma add_then_sub_counterexample :
  let A := triangular universe_0_40 0 10 20 in
  let B := triangular universe_0_40 5 15 25 in
  cut A (1 # 2) = [mkPiece (Fin 5) false (Fin 15) false]
  /\ cut B (1 # 2) = [mkPiece (Fin 10) false (Fin 20) false]
  /\ exists S R,
       addX A B (1 # 2) = Returned (Some S)
       /\ subX S B (1 # 2) = Returned (Some R)
       /\ cut R (1 # 2) = [mkPiece (Fin (-5)) false (Fin 25) false]
       /\ contains (Xmu.get_xequals R) (1 # 2) 0 = true
       /\ contains (Xmu.get_xequals A) (1 # 2) 0 = false
       /\ contains (Xmu.get_xequals R) (1 # 2) 25 = true
       /\ contains (Xmu.get_xequals A) (1 # 2) 25 = false.
Proof.
  intros A B. split; [vm_compute; reflexivity |].
  split; [vm_compute; reflexivity |].
  eexists. eexists. split; [vm_compute; reflexivity |].
  split; [vm_compute; reflexivity |].
  repeat split; vm_compute; reflexivity.
Qed.

(** ** The alpha passed to the arithmetic *)

(** The arithmetic sees alpha only through the two alpha-cuts taken at
    that very alpha. *)
Lemma arithmetical_depends_on_cuts (A B A' B' : Xmu.t) (alpha alpha' : Q)
    (operation : mpi -> mpi -> outcome mpi) :
  Xmu.u A' = Xmu.u A -> cut A' alpha' = cut A alpha -> cut B' alpha' = cut B alpha ->
  arithmeticalOperationX A' B' alpha' operation
  = arithmeticalOperationX A B alpha operation.
Proof.
  unfold arithmeticalOperationX, cut. intros -> -> ->. reflexivity.
Qed.

(** C8, as the code has it. An alpha outside [0,1] is not rejected and
    not clamped: the operations substitute it as given.  They return None
    exactly when a cut at that alpha is empty.  On cuts that are neither
    empty nor unions the operator is applied to the ends of the cuts at
    that alpha and the result is wrapped: the four rational operations
    return an entity, the power whenever mpmath's power yields an
    interval.  When neither cut is empty or a finite set and one is a
    union of several pieces, the call raises the attribute error of the
    union.  Two calls whose cuts agree do the same, whatever their
    alphas. *)
Theorem alpha_out_of_range_is_substituted
    (mpi_pow : mpi -> mpi -> outcome mpi) (A B : Xmu.t) (alpha : Q) :
  alpha < 0 \/ 1 < alpha ->
  let a := ends (cut A alpha) in
  let b := ends (cut B alpha) in
  let empty :=
    is_EmptySet (cut A alpha) = true \/ is_EmptySet (cut B alpha) = true in
  ((addX A B alpha = Returned None <-> empty)
   /\ (subX A B alpha = Returned None <-> empty)
   /\ (multiplyX A B alpha = Returned None <-> empty)
   /\ (divX A B alpha = Returned None <-> empty)
   /\ (powX mpi_pow A B alpha = Returned None <-> empty))
  /\ (is_EmptySet (cut A alpha) = false -> is_EmptySet (cut B alpha) = false ->
      class_of (cut A alpha) <> cls_Union -> class_of (cut B alpha) <> cls_Union ->
      (forall operation,
         arithmeticalOperationX A B alpha operation
         = (r <- operation a b ;; Returned (Some (wrap A (as_floats r)))))
      /\ (exists e, addX A B alpha = Returned (Some e))
      /\ (exists e, subX A B alpha = Returned (Some e))
      /\ (exists e, multiplyX A B alpha = Returned (Some e))
      /\ (exists e, divX A B alpha = Returned (Some e))
      /\ forall r, mpi_pow a b = Returned r ->
                   exists e, powX mpi_pow A B alpha = Returned (Some e))
  /\ (is_EmptySet (cut A alpha) = false -> is_EmptySet (cut B alpha) = false ->
      is_FiniteSet (cut A alpha) = false -> is_FiniteSet (cut B alpha) = false ->
      class_of (cut A alpha) = cls_Union \/ class_of (cut B alpha) = cls_Union ->
      forall operation,
        arithmeticalOperationX A B alpha operation = Raised AttributeError)
  /\ (forall A' B' alpha' operation,
        Xmu.u A' = Xmu.u A ->
        cut A' alpha' = cut A alpha -> cut B' alpha' = cut B alpha ->
        arithmeticalOperationX A' B' alpha' operation
        = arithmeticalOperationX A B alpha operation).
Proof.
  intros _ a b empty. split; [| split; [| split]].
  - repeat split; apply arithmetical_None_iff.
  - intros EA EB UA UB.
    split; [intros operation; now apply arithmetical_not_union |].
    unfold addX, subX, multiplyX, divX, powX.
    rewrite !(arithmetical_not_union A B alpha _ EA UA EB UB).
    repeat split; try (eexists; reflexivity).
    intros r Hr. fold a b. rewrite Hr. eexists. reflexivity.
  - intros EA EB FA FB U operation. now apply arithmetical_union.
  - intros A' B' alpha' operation. apply arithmetical_depends_on_cuts.
Qed.

Lemma alpha_out_of_range_is_substituted_witness :
  let A := upward universe_0_40 0 5 in
  exists e, addX A A 2 = Returned (Some e).
Proof.
  intros A.
  apply (alpha_out_of_range_is_substituted (fun _ _ => Raised ComplexResult) A A 2);
    first [right; reflexivity | vm_compute; congruence].
Defined.

(** C8 fails as stated: alpha = 2 lies outside [0,1], and addX returns an
    entity: the sum [20, 80] of the cut [10, 40] taken at 2 with itself.
    (Clamping 2 to 1 would have given the other result shown.) *)
Lemma alpha_out_of_range_counterexample :
  let A := upward universe_0_40 0 5 in
  ~ (0 <= 2 <= 1)
  /\ (exists e, addX A A 2 = Returned (Some e)
                /\ Xmu.get_xequals e
                   = Interval (Finite (Float (20 # 1))) (Finite (Float (80 # 1))))
  /\ (exists e, addX A A 1 = Returned (Some e)
                /\ Xmu.get_xequals e
                   = Interval (Finite (Float (10 # 1))) (Finite (Float (80 # 1))))
  /\ addX A A 2 <> addX A A 1.
Proof.
  intros A. split; [| split; [| split]].
  - intros [_ H]. revert H. apply Qlt_not_le. reflexivity.
  - eexists. split; vm_compute; reflexivity.
  - eexists. split; vm_compute; reflexivity.
  - vm_compute. discriminate.
Qed.

(** ** Construction *)

Lemma empty_universe (lo hi : number) :
  num_ltb hi lo = true ->
  Xmu.as_universe (sympy_Interval lo hi) = Raised AttributeError.
Proof. intros H. unfold sympy_Interval. now rewrite H. Qed.

(** C9, as the code has it. A universe with inf > sup is, for SymPy, the
    empty set: every constructor fails on it at construction time, when
    it reads the ends of the universe.  Control points are never checked:
    over a universe interval each generator returns its entity for any
    control points, ordered or not. *)
Theorem construction_checks_universe_only
    (lo hi : number) (U : Universe) (a b c d : option Q) (a' b' c' d' : Q) :
  (num_ltb hi lo = true ->
   let u := sympy_Interval lo hi in
   Xmu.__init__ u = Raised AttributeError
   /\ (forall f, BasicXmu.__init__ u f = Raised AttributeError)
   /\ UpwardGradientXmu.__init__ u a b = Raised AttributeError
   /\ DownwardGradientXmu.__init__ u a b = Raised AttributeError
   /\ TrapezoidalXmu.__init__ u a b c d = Raised AttributeError
   /\ TriangularXmu.__init__ u a b c = Raised AttributeError)
  /\ UpwardGradientXmu.__init__ (universe_set U) (Some a') (Some b')
     = Returned (upward U a' b')
  /\ DownwardGradientXmu.__init__ (universe_set U) (Some a') (Some b')
     = Returned (downward U a' b')
  /\ TrapezoidalXmu.__init__ (universe_set U) (Some a') (Some b') (Some c') (Some d')
     = Returned (trapezoidal U a' b' c' d')
  /\ TriangularXmu.__init__ (universe_set U) (Some a') (Some b') (Some c')
     = Returned (triangular U a' b' c').
Proof.
  split.
  - intros H u.
    unfold BasicXmu.__init__, UpwardGradientXmu.__init__,
      DownwardGradientXmu.__init__, TrapezoidalXmu.__init__,
      TriangularXmu.__init__, Xmu.__init__, u.
    rewrite (empty_universe lo hi H). repeat split.
  - repeat split.
    + apply upward_init.
    + apply downward_init.
    + apply trapezoidal_init.
    + apply triangular_init.
Qed.

Lemma construction_checks_universe_only_witness :
  TrapezoidalXmu.__init__ (sympy_Interval (Fin 5) (Fin 1))
    (Some 1) (Some 2) (Some 3) (Some 4)
  = Raised AttributeError.
Proof.
  apply (construction_checks_universe_only (Fin 5) (Fin 1) universe_0_40
           (Some 1) (Some 2) (Some 3) (Some 4) 1 2 3 4).
  reflexivity.
Defined.

(** C9 fails as stated: the control points 5, 4, 3, 2 violate
    a <= b <= c <= d, and the trapezoidal generator returns an entity,
    with the interval formulas built on those points. *)
Lemma construction_counterexample :
  ~ (5 <= 4)
  /\ TrapezoidalXmu.__init__ (universe_set universe_0_40)
       (Some 5) (Some 4) (Some 3) (Some 2)
     = Returned (trapezoidal universe_0_40 5 4 3 2)
  /\ Xmu.get_xequals (trapezoidal universe_0_40 5 4 3 2)
     = Interval (Finite (lower_bound 5 4)) (Finite (upper_bound 3 2)).
Proof.
  split; [| split].
  - apply Qlt_not_le. reflexivity.
  - reflexivity.
  - reflexivity.
Qed.

(** * Further properties of the library *)

(** ** Membership functions of the generators: which branch is taken

    The guards compare floats, which is exact; the plateau and the tails
    are the constants 1.0 and 0.0. *)

(** The guard [b <= x <= c] of a plateau. *)
Lemma plateau_guard (b c x : Q) :
  eval_cond (CAnd (CLe (XFloat b) X) (CLe X (XFloat c))) x = true
  <-> b <= x /\ x <= c.
Proof.
  simpl. unfold compare_with. simpl.
  now rewrite andb_true_iff, !Qle_bool_iff.
Qed.

Lemma guard_false (c : Cond) (x : Q) (P : Prop) :
  (eval_cond c x = true <-> P) -> ~ P -> eval_cond c x = false.
Proof. intros H N. apply not_true_is_false. tauto. Qed.

(** The trapezoidal membership function (the one [TrapezoidalXmu] and
    [TriangularXmu] install). *)
Definition trapezoid_mu (a b c d : Q) : Piecewise :=
  [rising a b;
   (XFloat 1, CAnd (CLe (XFloat b) X) (CLe X (XFloat c)));
   falling c d;
   (XFloat 0, CTrue)].

(** X1. The membership function that the trapezoidal class installs and
    returns (the triangular class installs the one of (a, b, b, c)) is
    the constant 1 on the plateau: at every x with b <= x <= c that is
    not strictly between a and b; it is the constant 0 at every x that
    lies in none of the three segments.  With ordered control points
    this makes it exactly 1 on [b, c] and exactly 0 at and below a and
    at and above d, the plateau apart.  The two linear branches are
    taken strictly inside (a, b) and (c, d) only. *)
Theorem trapezoid_mu_plateau (self : Xmu.t) (a b c d x : Q) :
  let mu := snd (TrapezoidalXmu.setMuFunction self a b c d) in
  Xmu.get_muequals (fst (TrapezoidalXmu.setMuFunction self a b c d)) = mu
  /\ snd (TriangularXmu.setMuFunction self a b c)
     = snd (TrapezoidalXmu.setMuFunction self a b b c)
  /\ (branch_at mu x = Some 0%nat <-> a < x < b)
  /\ (branch_at mu x = Some 2%nat
      <-> ~ (a < x < b) /\ ~ (b <= x <= c) /\ c < x < d)
  /\ (~ (a < x < b) -> b <= x <= c -> eval_piecewise mu x = Some 1)
  /\ (~ (a < x < b) -> ~ (b <= x <= c) -> ~ (c < x < d) ->
      eval_piecewise mu x = Some 0)
  /\ (a <= b -> b <= c -> c <= d ->
      (b <= x <= c -> eval_piecewise mu x = Some 1)
      /\ ((x <= a \/ d <= x) -> ~ (b <= x <= c) -> eval_piecewise mu x = Some 0)).
Proof.
  intros mu.
  change mu with (trapezoid_mu a b c d).
  pose proof (linear_guard a b x) as G1.
  pose proof (plateau_guard b c x) as G2.
  pose proof (linear_guard c d x) as G3.
  assert (B : branch_at (trapezoid_mu a b c d) x
              = if eval_cond (snd (rising a b)) x then Some 0%nat
                else if eval_cond (CAnd (CLe (XFloat b) X) (CLe X (XFloat c))) x
                     then Some 1%nat
                     else if eval_cond (snd (falling c d)) x then Some 2%nat
                          else Some 3%nat).
  { unfold trapezoid_mu, rising, falling. cbn [branch_at snd option_map].
    destruct (eval_cond (CAnd (CLt (XFloat a) X) (CLt X (XFloat b))) x);
      [reflexivity |].
    destruct (eval_cond (CAnd (CLe (XFloat b) X) (CLe X (XFloat c))) x);
      [reflexivity |].
    destruct (eval_cond (CAnd (CLt (XFloat c) X) (CLt X (XFloat d))) x);
      reflexivity. }
  assert (P1 : ~ (a < x < b) -> b <= x <= c ->
               eval_piecewise (trapezoid_mu a b c d) x = Some 1).
  { intros N1 H2. unfold trapezoid_mu, rising. cbn [eval_piecewise].
    rewrite (guard_false _ _ _ G1 N1).
    apply G2 in H2. rewrite H2. reflexivity. }
  assert (P0 : ~ (a < x < b) -> ~ (b <= x <= c) -> ~ (c < x < d) ->
               eval_piecewise (trapezoid_mu a b c d) x = Some 0).
  { intros N1 N2 N3. unfold trapezoid_mu, rising, falling. cbn [eval_piecewise].
    rewrite (guard_false _ _ _ G1 N1), (guard_false _ _ _ G2 N2),
      (guard_false _ _ _ G3 N3). reflexivity. }
  split; [reflexivity |]. split; [reflexivity |].
  split; [| split; [| split; [exact P1 | split; [exact P0 |]]]].
  - rewrite B. unfold rising, falling in *. cbn [snd] in *.
    destruct (eval_cond (CAnd (CLt (XFloat a) X) (CLt X (XFloat b))) x) eqn:E1.
    + split; [intros _; now apply G1 | reflexivity].
    + split; [| intros H; apply G1 in H; discriminate].
      destruct (eval_cond (CAnd (CLe (XFloat b) X) (CLe X (XFloat c))) x);
        [discriminate |].
      destruct (eval_cond (CAnd (CLt (XFloat c) X) (CLt X (XFloat d))) x);
        discriminate.
  - rewrite B. unfold rising, falling in *. cbn [snd] in *.
    destruct (eval_cond (CAnd (CLt (XFloat a) X) (CLt X (XFloat b))) x) eqn:E1.
    { split; [discriminate | intros (N1 & _); exfalso; apply N1; now apply G1]. }
    destruct (eval_cond (CAnd (CLe (XFloat b) X) (CLe X (XFloat c))) x) eqn:E2.
    { split; [discriminate | intros (_ & N2 & _); exfalso; apply N2; now apply G2]. }
    destruct (eval_cond (CAnd (CLt (XFloat c) X) (CLt X (XFloat d))) x) eqn:E3.
    + split; [intros _ | reflexivity].
      split; [intros H; apply G1 in H; discriminate |].
      split; [intros H; apply G2 in H; discriminate | now apply G3].
    + split; [discriminate | intros (_ & _ & H); apply G3 in H; discriminate].
  - intros Hab Hbc Hcd. split.
    + intros H2. apply P1; [lra | exact H2].
    + intros Hx N2. apply P0; [lra | exact N2 | lra].
Qed.

(** The trapezoid (2, 5, 6, 8): 1 at 5.5, 0 at 2 and at 9. *)
Lemma trapezoid_mu_plateau_witness :
  let mu := snd (TrapezoidalXmu.setMuFunction (blank universe_0_40) 2 5 6 8) in
  eval_piecewise mu (11 # 2) = Some 1
  /\ eval_piecewise mu 2 = Some 0 /\ eval_piecewise mu 9 = Some 0.
Proof.
  intros mu.
  destruct (trapezoid_mu_plateau (blank universe_0_40) 2 5 6 8 (11 # 2))
    as (_ & _ & _ & _ & _ & _ & H).
  destruct (trapezoid_mu_plateau (blank universe_0_40) 2 5 6 8 2)
    as (_ & _ & _ & _ & _ & _ & H2).
  destruct (trapezoid_mu_plateau (blank universe_0_40) 2 5 6 8 9)
    as (_ & _ & _ & _ & _ & _ & H9).
  assert (O1 : 2 <= 5) by (apply Qle_bool_iff; reflexivity).
  assert (O2 : 5 <= 6) by (apply Qle_bool_iff; reflexivity).
  assert (O3 : 6 <= 8) by (apply Qle_bool_iff; reflexivity).
  split; [| split].
  - apply (H O1 O2 O3). split; apply Qle_bool_iff; reflexivity.
  - apply (H2 O1 O2 O3); [left; apply Qle_refl |].
    intros [L _]. revert L. apply Qlt_not_le. reflexivity.
  - apply (H9 O1 O2 O3); [right; apply Qle_bool_iff; reflexivity |].
    intros [_ L]. revert L. apply Qlt_not_le. reflexivity.
Defined.

(** X6. The two gradients are steps outside their slope.  The upward
    membership function is the constant 1 from b on and the constant 0
    at and below a (where that is below b); the downward one is the
    constant 1 at and below a and the constant 0 from b on (where that
    is above a).  Their linear branch is taken strictly inside (a, b)
    only. *)
Theorem gradients_are_steps (self : Xmu.t) (a b x : Q) :
  let up := snd (UpwardGradientXmu.setMuFunction self a b) in
  let down := snd (DownwardGradientXmu.setMuFunction self a b) in
  (branch_at up x = Some 0%nat <-> a < x < b)
  /\ (branch_at down x = Some 0%nat <-> a < x < b)
  /\ (b <= x -> eval_piecewise up x = Some 1)
  /\ (x <= a -> x < b -> eval_piecewise up x = Some 0)
  /\ (x <= a -> eval_piecewise down x = Some 1)
  /\ (b <= x -> a < x -> eval_piecewise down x = Some 0).
Proof.
  intros up down. unfold up, down.
  cbn [UpwardGradientXmu.setMuFunction DownwardGradientXmu.setMuFunction snd].
  unfold rising.
  pose proof (linear_guard a b x) as G.
  cbn [branch_at eval_piecewise option_map].
  destruct (eval_cond (CAnd (CLt (XFloat a) X) (CLt X (XFloat b))) x) eqn:E.
  - assert (H : a < x < b) by now apply G.
    split; [| split; [| split; [| split; [| split]]]];
      try (split; [intros _; exact H | reflexivity]); intros; exfalso; lra.
  - assert (N : ~ (a < x < b)) by (intros H; apply G in H; discriminate).
    cbn [eval_cond compare_with eval_xexpr].
    split; [| split; [| split; [| split; [| split]]]].
    + split; [| tauto].
      destruct (Qle_bool b x); cbn; discriminate.
    + split; [| tauto].
      destruct (Qle_bool x a); cbn; discriminate.
    + intros H. apply Qle_bool_iff in H. now rewrite H.
    + intros _ H. destruct (Qle_bool b x) eqn:L; [| reflexivity].
      apply Qle_bool_iff in L. lra.
    + intros H. apply Qle_bool_iff in H. now rewrite H.
    + intros _ H. destruct (Qle_bool x a) eqn:L; [| reflexivity].
      apply Qle_bool_iff in L. lra.
Qed.

Lemma gradients_are_steps_witness :
  eval_piecewise (snd (UpwardGradientXmu.setMuFunction (blank universe_0_40) 2 5)) 7
  = Some 1
  /\ eval_piecewise (snd (DownwardGradientXmu.setMuFunction (blank universe_0_40) 2 5)) 7
     = Some 0.
Proof.
  destruct (gradients_are_steps (blank universe_0_40) 2 5 7)
    as (_ & _ & U & _ & _ & D).
  split.
  - apply U. apply Qle_bool_iff. reflexivity.
  - apply D; [apply Qle_bool_iff; reflexivity | reflexivity].
Defined.

(** ** The alpha-cuts stay within the support *)

(** A lower bound never falls below its base point, an upper bound
    never rises above it, at any alpha that is not negative: rounding is
    monotone and leaves a float as it is. *)
Lemma lower_bound_base (a b alpha : Q) :
  is_float a -> a <= b -> 0 <= alpha -> a <= subs_expr (lower_bound a b) alpha.
Proof.
  intros Fa Hab H. rewrite subs_lower_bound.
  destruct (Qeq_bool (slope_up a b) 0); [apply Qle_refl |].
  assert (K : 0 <= slope_up a b) by (apply coef_add_sign; lra).
  assert (T : 0 <= fmul (slope_up a b) alpha).
  { apply round53_nonneg. now apply Qmult_le_0_compat. }
  unfold is_float in Fa. apply Qle_trans with (round53 a).
  - rewrite Fa. apply Qle_refl.
  - apply round53_mono. lra.
Qed.

Lemma upper_bound_base (c d alpha : Q) :
  is_float d -> c <= d -> 0 <= alpha -> subs_expr (upper_bound c d) alpha <= d.
Proof.
  intros Fd Hcd H. rewrite subs_upper_bound.
  destruct (Qeq_bool (slope_down c d) 0); [apply Qle_refl |].
  assert (K : slope_down c d <= 0) by (apply coef_add_sign; lra).
  assert (T : fmul (slope_down c d) alpha <= 0).
  { apply round53_nonpos.
    assert (P : 0 <= - slope_down c d * alpha) by (apply Qmult_le_0_compat; lra).
    lra. }
  unfold is_float in Fd. apply Qle_trans with (round53 d).
  - apply round53_mono. lra.
  - rewrite Fd. apply Qle_refl.
Qed.

(** At alpha = 0 a bound is its base point. *)
Lemma bound_at_0 (k c : Q) :
  is_float c -> (if Qeq_bool k 0 then c else fadd c (fmul k 0)) == c.
Proof.
  intros Fc. destruct (Qeq_bool k 0); [reflexivity |].
  unfold fadd, fmul.
  assert (Z : round53 (k * 0) = 0) by (apply round53_zero; ring).
  rewrite Z. unfold is_float in Fc. transitivity (round53 c); [| exact Fc].
  apply round53_comp. ring.
Qed.

(** X2. With float control points a <= b and c <= d, the alpha-cut of
    the trapezoid at alpha = 0 is its support [a, d], and at every alpha
    that is not negative the cut lies within the support, whatever the
    rounding of the two bounds.  The same holds for the triangle
    (a, b, d) with a <= b <= d. *)
Theorem cut_within_support (U : Universe) (a b c d alpha x : Q) :
  is_float a -> is_float d -> a <= b -> c <= d ->
  (contains (Xmu.get_xequals (trapezoidal U a b c d)) 0 x = true <-> a <= x <= d)
  /\ (0 <= alpha ->
      contains (Xmu.get_xequals (trapezoidal U a b c d)) alpha x = true ->
      a <= x <= d)
  /\ (b <= d ->
      (contains (Xmu.get_xequals (triangular U a b d)) 0 x = true <-> a <= x <= d)
      /\ (0 <= alpha ->
          contains (Xmu.get_xequals (triangular U a b d)) alpha x = true ->
          a <= x <= d)).
Proof.
  intros Fa Fd Hab Hcd.
  assert (T : forall b' c' level,
             contains (Xmu.get_xequals (trapezoidal U a b' c' d)) level x = true
             <-> subs_expr (lower_bound a b') level <= x
                 <= subs_expr (upper_bound c' d) level).
  { intros b' c' level. unfold contains, trapezoidal.
    cbn [Xmu.get_xequals Xmu.xequals fst TrapezoidalXmu.setXFunction
         Xmu.set_xequals subs subs_bound].
    apply mem_closed_Fin. }
  assert (Z : forall b' c',
             contains (Xmu.get_xequals (trapezoidal U a b' c' d)) 0 x = true
             <-> a <= x <= d).
  { intros b' c'. rewrite T, subs_lower_bound, subs_upper_bound.
    now rewrite (bound_at_0 _ a Fa), (bound_at_0 _ d Fd). }
  assert (S : forall b' c', a <= b' -> c' <= d -> 0 <= alpha ->
             contains (Xmu.get_xequals (trapezoidal U a b' c' d)) alpha x = true ->
             a <= x <= d).
  { intros b' c' H1 H2 H0 Hx. apply T in Hx.
    pose proof (lower_bound_base a b' alpha Fa H1 H0).
    pose proof (upper_bound_base c' d alpha Fd H2 H0). lra. }
  split; [apply Z |]. split; [now apply S |].
  intros E. change (triangular U a b d) with (trapezoidal U a b b d).
  split; [apply Z |]. apply S; lra.
Qed.

Lemma cut_within_support_witness :
  contains (Xmu.get_xequals (trapezoidal universe_0_40 2 5 6 8)) 0 3 = true
  <-> 2 <= 3 <= 8.
Proof.
  set (x := 3).
  assert (F2 : is_float 2) by (vm_compute; reflexivity).
  assert (F8 : is_float 8) by (vm_compute; reflexivity).
  assert (O1 : 2 <= 5) by (apply Qle_bool_iff; reflexivity).
  assert (O2 : 6 <= 8) by (apply Qle_bool_iff; reflexivity).
  destruct (cut_within_support universe_0_40 2 5 6 8 0 x F2 F8 O1 O2) as (H & _).
  exact H.
Defined.

(** X4. With float control points a <= b, over a universe with numeric
    ends, the alpha-cut of the upward gradient at alpha = 0 runs from a
    to the end of the universe and the one of the downward gradient from
    the start of the universe to b; at every alpha that is not negative
    the cut lies within the cut at 0. *)
Theorem gradient_cut_within_support (lo hi : number) (a b alpha x : Q) :
  is_float a -> is_float b -> a <= b ->
  let U := real_universe lo hi in
  (contains (Xmu.get_xequals (upward U a b)) 0 x = true
   <-> a <= x /\ num_leb (Fin x) hi = true)
  /\ (contains (Xmu.get_xequals (downward U a b)) 0 x = true
      <-> num_leb lo (Fin x) = true /\ x <= b)
  /\ (0 <= alpha ->
      (contains (Xmu.get_xequals (upward U a b)) alpha x = true ->
       contains (Xmu.get_xequals (upward U a b)) 0 x = true)
      /\ (contains (Xmu.get_xequals (downward U a b)) alpha x = true ->
          contains (Xmu.get_xequals (downward U a b)) 0 x = true)).
Proof.
  intros Fa Fb Hab U.
  assert (Up : forall level,
             contains (Xmu.get_xequals (upward U a b)) level x = true
             <-> subs_expr (lower_bound a b) level <= x
                 /\ num_leb (Fin x) hi = true).
  { intros level. unfold contains, upward, U.
    cbn [Xmu.get_xequals Xmu.xequals fst UpwardGradientXmu.setXFunction
         UpwardGradientXmu.setMuFunction Xmu.set_xequals Xmu.set_muequals
         Xmu.u blank u_sup u_end real_universe subs subs_bound].
    now rewrite subs_bound_number, mem_closed, num_leb_Fin. }
  assert (Down : forall level,
             contains (Xmu.get_xequals (downward U a b)) level x = true
             <-> num_leb lo (Fin x) = true
                 /\ x <= subs_expr (upper_bound a b) level).
  { intros level. unfold contains, downward, U.
    cbn [Xmu.get_xequals Xmu.xequals fst DownwardGradientXmu.setXFunction
         DownwardGradientXmu.setMuFunction Xmu.set_xequals Xmu.set_muequals
         Xmu.u blank u_inf u_start real_universe subs subs_bound].
    now rewrite subs_bound_number, mem_closed, num_leb_Fin. }
  assert (Z1 : subs_expr (lower_bound a b) 0 == a).
  { rewrite subs_lower_bound. now apply bound_at_0. }
  assert (Z2 : subs_expr (upper_bound a b) 0 == b).
  { rewrite subs_upper_bound. now apply bound_at_0. }
  split; [| split].
  - now rewrite Up, Z1.
  - now rewrite Down, Z2.
  - intros H0. split; intros Hx.
    + apply Up. apply Up in Hx. destruct Hx as [Hx Hh]. split; [| exact Hh].
      pose proof (lower_bound_base a b alpha Fa Hab H0). lra.
    + apply Down. apply Down in Hx. destruct Hx as [Hl Hx]. split; [exact Hl |].
      pose proof (upper_bound_base a b alpha Fb Hab H0). lra.
Qed.

Lemma gradient_cut_within_support_witness :
  contains (Xmu.get_xequals (upward (real_universe (Fin 0) (Fin 40)) 2 5)) 0 3 = true
  <-> 2 <= 3 /\ num_leb (Fin 3) (Fin 40) = true.
Proof.
  set (x := 3).
  assert (F2 : is_float 2) by (vm_compute; reflexivity).
  assert (F5 : is_float 5) by (vm_compute; reflexivity).
  assert (O : 2 <= 5) by (apply Qle_bool_iff; reflexivity).
  destruct (gradient_cut_within_support (Fin 0) (Fin 40) 2 5 0 x F2 F5 O)
    as (H & _).
  exact H.
Defined.

(** ** Set algebra *)

(** [x] lies in a universe with numeric ends. *)
Definition in_universe (lo hi : number) (x : Q) : bool :=
  num_leb lo (Fin x) && num_leb (Fin x) hi.

Lemma contains_universe (lo hi : number) (alpha x : Q) :
  contains (universe_set (real_universe lo hi)) alpha x = in_universe lo hi x.
Proof.
  unfold contains, universe_set, real_universe, in_universe.
  cbn [u_start u_end subs]. rewrite !subs_bound_number.
  destruct (mem (closed lo hi) x) eqn:M.
  - apply mem_closed in M. destruct M as [-> ->]. reflexivity.
  - symmetry. apply not_true_is_false. intros H.
    apply andb_true_iff in H. apply mem_closed in H. congruence.
Qed.

(** X7. Union and intersection do not depend on which operand is the
    receiver, as far as the alpha-cuts go: at every alpha the two results
    hold the same points.  (The universe of the result is the
    receiver's.) *)
Theorem union_intersection_commute (A B : Xmu.t) :
  (exists e1 e2,
     unionX A B = Returned e1 /\ unionX B A = Returned e2
     /\ Xmu.u e1 = Xmu.u A /\ Xmu.u e2 = Xmu.u B
     /\ forall alpha x,
          contains (Xmu.get_xequals e1) alpha x
          = contains (Xmu.get_xequals e2) alpha x)
  /\ (exists e1 e2,
        intersectX A B = Returned e1 /\ intersectX B A = Returned e2
        /\ Xmu.u e1 = Xmu.u A /\ Xmu.u e2 = Xmu.u B
        /\ forall alpha x,
             contains (Xmu.get_xequals e1) alpha x
             = contains (Xmu.get_xequals e2) alpha x).
Proof.
  split.
  - unfold unionX. rewrite !BasicXmu_init_universe.
    eexists. eexists. repeat (split; [reflexivity |]).
    intros alpha x. unfold contains. cbn [Xmu.get_xequals Xmu.xequals subs].
    rewrite !mem_set_union. apply orb_comm.
  - unfold intersectX. rewrite !BasicXmu_init_universe.
    eexists. eexists. repeat (split; [reflexivity |]).
    intros alpha x. unfold contains. cbn [Xmu.get_xequals Xmu.xequals subs].
    rewrite !mem_set_intersect. apply andb_comm.
Qed.

(** The entity that a negation returns, when it returns. *)
Definition negation (A : Xmu.t) : Xmu.t :=
  Xmu.mk (Xmu.u A) Xmu.default_muequals
    (Complement (universe_set (Xmu.u A)) (Xmu.get_xequals A)).

Lemma negateX_returns (A : Xmu.t) :
  sympy_complement (Xmu.get_xequals A) = Returned tt ->
  negateX A = Returned (negation A).
Proof.
  intros H. unfold negateX. rewrite (sympy_sub_returns _ _ H). cbn [bind].
  apply BasicXmu_init_universe.
Qed.









(** X9. De Morgan: over one universe with numeric ends, when SymPy has a
    complement for both alpha-cut functions (as it has for intervals),
    the union can be negated, and its negation has at every alpha the
    same points as the intersection of the two negations. *)
Theorem negateX_of_union (lo hi : number) (mu1 mu2 : Piecewise) (s1 s2 : SetExpr) :
  let A := Xmu.mk (real_universe lo hi) mu1 s1 in
  let B := Xmu.mk (real_universe lo hi) mu2 s2 in
  sympy_complement s1 = Returned tt -> sympy_complement s2 = Returned tt ->
  exists u n nA nB i,
    unionX A B = Returned u /\ negateX u = Returned n
    /\ negateX A = Returned nA /\ negateX B = Returned nB
    /\ intersectX nA nB = Returned i
    /\ forall alpha x,
         contains (Xmu.get_xequals n) alpha x
         = contains (Xmu.get_xequals i) alpha x.
Proof.
  intros A B H1 H2.
  set (Un := Xmu.mk (real_universe lo hi) Xmu.default_muequals (Union s2 s1)).
  assert (U : unionX A B = Returned Un).
  { unfold unionX. apply BasicXmu_init_universe. }
  assert (HU : sympy_complement (Xmu.get_xequals Un) = Returned tt).
  { unfold Un. cbn [Xmu.get_xequals Xmu.xequals sympy_complement].
    rewrite H1, H2. cbn [bind]. now destruct (numeric (Union s2 s1)). }
  exists Un, (negation Un), (negation A), (negation B).
  eexists. split; [exact U |].
  split; [now apply negateX_returns |].
  split; [now apply negateX_returns |].
  split; [now apply negateX_returns |].
  split; [unfold intersectX; apply BasicXmu_init_universe |].
  intros alpha x. unfold negation, Un, A, B.
  cbn [Xmu.get_xequals Xmu.set_xequals Xmu.xequals Xmu.u].
  rewrite contains_Intersection, !contains_Complement, contains_Union.
  destruct (contains (universe_set (real_universe lo hi)) alpha x),
    (contains s1 alpha x), (contains s2 alpha x); reflexivity.
Qed.

Lemma negateX_of_union_witness :
  let U := real_universe (Fin 0) (Fin 40) in
  let T1 := triangular U 0 10 20 in
  let T2 := triangular U 5 15 25 in
  exists u n nA nB i,
    unionX T1 T2 = Returned u /\ negateX u = Returned n
    /\ negateX T1 = Returned nA /\ negateX T2 = Returned nB
    /\ intersectX nA nB = Returned i
    /\ forall alpha x,
         contains (Xmu.get_xequals n) alpha x
         = contains (Xmu.get_xequals i) alpha x.
Proof.
  intros U T1 T2.
  apply (negateX_of_union (Fin 0) (Fin 40)
           (Xmu.get_muequals T1) (Xmu.get_muequals T2)
           (Xmu.get_xequals T1) (Xmu.get_xequals T2)); reflexivity.
Defined.

(** X19. When negateX returns (SymPy has a complement for the alpha-cut
    function, as it has for an interval), the entity and its negation
    share no point at any level: their intersection has an empty
    alpha-cut everywhere.  Their union holds, over a universe with
    numeric ends, the whole universe together with the points of the
    entity's cut that lie outside of it. *)
Theorem negateX_is_disjoint (lo hi : number) (mu : Piecewise) (s : SetExpr) :
  let A := Xmu.mk (real_universe lo hi) mu s in
  sympy_complement s = Returned tt ->
  exists n i u,
    negateX A = Returned n /\ intersectX A n = Returned i
    /\ unionX A n = Returned u
    /\ (forall alpha x, contains (Xmu.get_xequals i) alpha x = false)
    /\ (forall alpha x,
          contains (Xmu.get_xequals u) alpha x
          = in_universe lo hi x || contains s alpha x).
Proof.
  intros A H. exists (negation A).
  unfold intersectX, unionX. rewrite !BasicXmu_init_universe.
  do 2 eexists. split; [now apply negateX_returns |].
  do 2 (split; [reflexivity |]).
  unfold negation, A. cbn [Xmu.get_xequals Xmu.xequals Xmu.u].
  split; intros alpha x.
  - rewrite contains_Intersection, contains_Complement.
    destruct (contains s alpha x),
      (contains (universe_set (real_universe lo hi)) alpha x); reflexivity.
  - rewrite contains_Union, contains_Complement, contains_universe.
    destruct (contains s alpha x), (in_universe lo hi x); reflexivity.
Qed.

Lemma negateX_is_disjoint_witness :
  let T := triangular (real_universe (Fin 0) (Fin 40)) 0 10 20 in
  exists n i u,
    negateX T = Returned n /\ intersectX T n = Returned i
    /\ unionX T n = Returned u
    /\ (forall alpha x, contains (Xmu.get_xequals i) alpha x = false)
    /\ (forall alpha x,
          contains (Xmu.get_xequals u) alpha x
          = in_universe (Fin 0) (Fin 40) x
            || contains (Xmu.get_xequals T) alpha x).
Proof.
  intros T.
  apply (negateX_is_disjoint (Fin 0) (Fin 40)
           (Xmu.get_muequals T) (Xmu.get_xequals T)).
  reflexivity.
Defined.

(** ** Interval arithmetic on alpha-cuts *)

(** The alpha-cut of [A] at [alpha] is one piece with the numeric ends
    [l] and [h]. *)
Definition bounded_cut (A : Xmu.t) (alpha l h : Q) : Prop :=
  exists p, cut A alpha = [p] /\ p_start p = Fin l /\ p_end p = Fin h.

Lemma bounded_cut_le (A : Xmu.t) (alpha l h : Q) :
  bounded_cut A alpha l h -> l <= h.
Proof.
  intros (p & Hc & Hs & He). apply (nonempty_Fin p); trivial.
  apply (subs_nonempty (Xmu.get_xequals A) alpha). fold (cut A alpha).
  rewrite Hc. now left.
Qed.

Lemma bounded_cut_mem (A : Xmu.t) (alpha l h x : Q) :
  bounded_cut A alpha l h ->
  contains (Xmu.get_xequals A) alpha x = true -> l <= x <= h.
Proof.
  intros (p & Hc & Hs & He) Hx. unfold contains in Hx.
  fold (cut A alpha) in Hx. rewrite Hc in Hx.
  cbn [mem existsb] in Hx. rewrite orb_false_r in Hx.
  apply mem_piece_bounds in Hx. rewrite Hs, He in Hx.
  destruct Hx as [H1 H2]. apply num_leb_Fin in H1, H2. lra.
Qed.

(** On two such cuts a total operator is handed the two pairs of ends,
    and its result is wrapped, its ends converted to Python floats. *)
Lemma arithmetical_bounded (f : mpi -> mpi -> mpi) (A B : Xmu.t)
    (alpha la ha lb hb : Q) :
  bounded_cut A alpha la ha -> bounded_cut B alpha lb hb ->
  arithmeticalOperationX A B alpha (total f)
  = Returned (Some (wrap A (as_floats (f (Fin la, Fin ha) (Fin lb, Fin hb))))).
Proof.
  intros (p & Hp & Hpl & Hph) (q & Hq & Hql & Hqh).
  rewrite arithmetical_not_union; rewrite ?Hp, ?Hq; try apply single_piece_class.
  rewrite !ends_single, Hpl, Hph, Hql, Hqh. reflexivity.
Qed.

(** The cut of a wrapped interval whose ends are Python floats. *)
Lemma contains_wrap (A : Xmu.t) (l h alpha x : Q) :
  exact_float l -> exact_float h ->
  contains (Xmu.get_xequals (wrap A (as_floats (Fin l, Fin h)))) alpha x = true
  <-> l <= x <= h.
Proof.
  unfold exact_float, wrap, as_floats. cbn [fst snd Xmu.get_xequals Xmu.xequals].
  intros -> ->. apply contains_sympy_Interval.
Qed.

(** X10. Addition of two entities whose cuts at alpha are the bounded
    intervals from la to ha and from lb to hb returns, when the two
    computed ends are within the range of Python's floats, the entity of
    the interval from la + lb rounded down to ha + hb rounded up, at
    every level.  The rounding is outwards and by at most a relative
    2^-52, so the sum of a point of A's cut and a point of B's cut lies
    in the result. *)
Theorem addX_encloses_sums (A B : Xmu.t) (alpha la ha lb hb : Q) :
  bounded_cut A alpha la ha -> bounded_cut B alpha lb hb ->
  let lo := floor53 (la + lb) in
  let hi := ceil53 (ha + hb) in
  exact_float lo -> exact_float hi ->
  exists S,
    addX A B alpha = Returned (Some S)
    /\ (forall level z, contains (Xmu.get_xequals S) level z = true
                        <-> lo <= z <= hi)
    /\ (la + lb - Qabs (la + lb) * pow2 (-52) <= lo /\ lo <= la + lb)
    /\ (ha + hb <= hi /\ hi <= ha + hb + Qabs (ha + hb) * pow2 (-52))
    /\ (forall x y,
          contains (Xmu.get_xequals A) alpha x = true ->
          contains (Xmu.get_xequals B) alpha y = true ->
          contains (Xmu.get_xequals S) alpha (x + y) = true).
Proof.
  intros HA HB. cbv zeta. intros Flo Fhi. unfold addX.
  rewrite (arithmetical_bounded _ A B alpha la ha lb hb HA HB).
  eexists. split; [reflexivity |].
  cbn [mpi_add fst snd num_add floor_end ceil_end or_nan round_num].
  pose proof (floor53_near (la + lb)) as L.
  pose proof (ceil53_near (ha + hb)) as U.
  split; [| split; [exact L | split; [exact U |]]].
  - intros level z. now apply contains_wrap.
  - intros x y Hx Hy. apply contains_wrap; trivial.
    apply (bounded_cut_mem A alpha la ha) in Hx; [| exact HA].
    apply (bounded_cut_mem B alpha lb hb) in Hy; [| exact HB]. lra.
Qed.

Lemma addX_encloses_sums_witness :
  exists S,
    addX (triangular universe_0_40 0 10 20) (triangular universe_0_40 5 15 25) (1 # 2)
    = Returned (Some S)
    /\ (forall level z, contains (Xmu.get_xequals S) level z = true
                        <-> 15 <= z <= 35).
Proof.
  assert (Elo : floor53 (5 + 10) == 15) by (vm_compute; reflexivity).
  assert (Ehi : ceil53 (15 + 20) == 35) by (vm_compute; reflexivity).
  assert (Flo : exact_float (floor53 (5 + 10))) by (vm_compute; reflexivity).
  assert (Fhi : exact_float (ceil53 (15 + 20))) by (vm_compute; reflexivity).
  assert (HA : bounded_cut (triangular universe_0_40 0 10 20) (1 # 2) 5 15)
    by (eexists; split; [| split]; vm_compute; reflexivity).
  assert (HB : bounded_cut (triangular universe_0_40 5 15 25) (1 # 2) 10 20)
    by (eexists; split; [| split]; vm_compute; reflexivity).
  destruct (addX_encloses_sums _ _ _ _ _ _ _ HA HB Flo Fhi)
    as (S & HS & Hcut & _).
  exists S. split; [exact HS |].
  intros level z. rewrite Hcut, Elo, Ehi. reflexivity.
Defined.

(** X11. Subtraction on two such cuts returns, when the two computed
    ends are within the range of Python's floats, the entity of the
    interval from la - hb rounded down to ha - lb rounded up, at every
    level; the difference of a point of A's cut and a point of B's cut
    lies in it. *)
Theorem subX_encloses_differences (A B : Xmu.t) (alpha la ha lb hb : Q) :
  bounded_cut A alpha la ha -> bounded_cut B alpha lb hb ->
  let lo := floor53 (la - hb) in
  let hi := ceil53 (ha - lb) in
  exact_float lo -> exact_float hi ->
  exists D,
    subX A B alpha = Returned (Some D)
    /\ (forall level z, contains (Xmu.get_xequals D) level z = true
                        <-> lo <= z <= hi)
    /\ (la - hb - Qabs (la - hb) * pow2 (-52) <= lo /\ lo <= la - hb)
    /\ (ha - lb <= hi /\ hi <= ha - lb + Qabs (ha - lb) * pow2 (-52))
    /\ (forall x y,
          contains (Xmu.get_xequals A) alpha x = true ->
          contains (Xmu.get_xequals B) alpha y = true ->
          contains (Xmu.get_xequals D) alpha (x - y) = true).
Proof.
  intros HA HB. cbv zeta. intros Flo Fhi. unfold subX.
  rewrite (arithmetical_bounded _ A B alpha la ha lb hb HA HB).
  eexists. split; [reflexivity |].
  cbn [mpi_sub fst snd num_sub num_neg num_add floor_end ceil_end or_nan round_num].
  change (la + - hb) with (la - hb). change (ha + - lb) with (ha - lb).
  pose proof (floor53_near (la - hb)) as L.
  pose proof (ceil53_near (ha - lb)) as U.
  split; [| split; [exact L | split; [exact U |]]].
  - intros level z. now apply contains_wrap.
  - intros x y Hx Hy. apply contains_wrap; trivial.
    apply (bounded_cut_mem A alpha la ha) in Hx; [| exact HA].
    apply (bounded_cut_mem B alpha lb hb) in Hy; [| exact HB].
    unfold Qminus in L, U |- *. lra.
Qed.

Lemma subX_encloses_differences_witness :
  exists D,
    subX (triangular universe_0_40 0 10 20) (triangular universe_0_40 5 15 25) (1 # 2)
    = Returned (Some D)
    /\ (forall level z, contains (Xmu.get_xequals D) level z = true
                        <-> -15 <= z <= 5).
Proof.
  assert (Elo : floor53 (5 - 20) == -15) by (vm_compute; reflexivity).
  assert (Ehi : ceil53 (15 - 10) == 5) by (vm_compute; reflexivity).
  assert (Flo : exact_float (floor53 (5 - 20))) by (vm_compute; reflexivity).
  assert (Fhi : exact_float (ceil53 (15 - 10))) by (vm_compute; reflexivity).
  assert (HA : bounded_cut (triangular universe_0_40 0 10 20) (1 # 2) 5 15)
    by (eexists; split; [| split]; vm_compute; reflexivity).
  assert (HB : bounded_cut (triangular universe_0_40 5 15 25) (1 # 2) 10 20)
    by (eexists; split; [| split]; vm_compute; reflexivity).
  destruct (subX_encloses_differences _ _ _ _ _ _ _ HA HB Flo Fhi)
    as (D & HD & Hcut & _).
  exists D. split; [exact HD |].
  intros level z. rewrite Hcut, Elo, Ehi. reflexivity.
Defined.

(** A product [t * k] lies between the products of the two bounds of
    [t] with [k], on the side the sign of [k] decides. *)
Lemma mul_between (u v t k : Q) :
  u <= t <= v -> (u * k <= t * k <= v * k) \/ (v * k <= t * k <= u * k).
Proof.
  intros [H1 H2]. destruct (Qlt_le_dec k 0) as [N | P].
  - right. split; nra.
  - left. split; nra.
Qed.

Lemma bilinear_between (la ha lb hb x y lo hi : Q) :
  la <= x <= ha -> lb <= y <= hb ->
  lo <= la * lb -> lo <= la * hb -> lo <= ha * lb -> lo <= ha * hb ->
  la * lb <= hi -> la * hb <= hi -> ha * lb <= hi -> ha * hb <= hi ->
  lo <= x * y <= hi.
Proof.
  intros Hx Hy. intros.
  destruct (mul_between la ha x y Hx) as [[A1 A2] | [A1 A2]];
    destruct (mul_between lb hb y la Hy) as [[B1 B2] | [B1 B2]];
    destruct (mul_between lb hb y ha Hy) as [[C1 C2] | [C1 C2]]; split; lra.
Qed.

Lemma Qinv_anti_pos (a b : Q) : 0 < a -> a <= b -> / b <= / a.
Proof.
  intros Ha Hab. apply Qle_shift_inv_r; [lra |].
  assert (E : / a * a == 1) by (field; lra).
  assert (P : 0 < / a) by now apply Qinv_lt_0_compat.
  nra.
Qed.

(** Away from 0 the reciprocal reverses the order. *)
Lemma Qinv_anti (a b : Q) : 0 < a \/ b < 0 -> a <= b -> / b <= / a.
Proof.
  intros [Ha | Hb] Hab.
  - now apply Qinv_anti_pos.
  - assert (H : / - a <= / - b) by (apply Qinv_anti_pos; lra).
    assert (E1 : / - a == - / a) by (field; lra).
    assert (E2 : / - b == - / b) by (field; lra).
    lra.
Qed.

(** The four combinations of an end of the first cut with an end of the
    second. *)
Definition corners (f : Q -> Q -> Q) (la ha lb hb : Q) : list Q :=
  [f la lb; f la hb; f ha lb; f ha hb].

(** The hull of four numbers: its ends are two of them, and it holds all
    four. *)
Lemma hull4_Fin (c1 c2 c3 c4 : Q) :
  exists lo hi,
    hull4 (Some (Fin c1)) (Some (Fin c2)) (Some (Fin c3)) (Some (Fin c4))
    = (Fin lo, Fin hi)
    /\ In lo [c1; c2; c3; c4] /\ In hi [c1; c2; c3; c4]
    /\ forall c, In c [c1; c2; c3; c4] -> lo <= c <= hi.
Proof.
  unfold hull4, num_min, num_max.
  repeat (cbn [num_leb];
          match goal with
          | |- context [Qle_bool ?a ?b] =>
              let E := fresh "E" in
              destruct (Qle_bool a b) eqn:E;
              [apply Qle_bool_iff in E | apply Qle_bool_false in E]
          end);
    (eexists; eexists; split; [reflexivity |]);
    (split; [cbn [In]; tauto |]); (split; [cbn [In]; tauto |]);
    intros c [<- | [<- | [<- | [<- | []]]]]; lra.
Qed.

Lemma floor53_zero (q : Q) : q == 0 -> floor53 q = 0.
Proof.
  intros E. unfold floor53, round_signed.
  assert (C : Qcompare q 0 = Eq) by now apply Qeq_alt.
  now rewrite C.
Qed.

Lemma ceil53_zero (q : Q) : q == 0 -> ceil53 q = 0.
Proof.
  intros E. unfold ceil53, round_signed.
  assert (C : Qcompare q 0 = Eq) by now apply Qeq_alt.
  now rewrite C.
Qed.

(** mpmath's product of two bounded intervals: the smallest of the four
    products of the ends, rounded down, and the largest, rounded up.
    Where the signs of the ends tell which products these are, mpmath
    computes only those two. *)
Lemma mpi_mul_Fin (la ha lb hb : Q) :
  la <= ha -> lb <= hb ->
  exists m M,
    mpi_mul (Fin la, Fin ha) (Fin lb, Fin hb) = (Fin (floor53 m), Fin (ceil53 M))
    /\ In m (corners Qmult la ha lb hb) /\ In M (corners Qmult la ha lb hb)
    /\ forall c, In c (corners Qmult la ha lb hb) -> m <= c <= M.
Proof.
  intros Ha Hb. unfold mpi_mul, corners. cbn [num_sign].
  destruct (Qcompare_spec la 0) as [A1 | A1 | A1];
    destruct (Qcompare_spec ha 0) as [A2 | A2 | A2];
    try (exfalso; lra);
    destruct (Qcompare_spec lb 0) as [B1 | B1 | B1];
    destruct (Qcompare_spec hb 0) as [B2 | B2 | B2];
    try (exfalso; lra);
    cbn [is_zero is_neg is_pos is_NegInf is_PosInf andb orb negb
         num_mul floor_end ceil_end or_nan round_num];
    first
      [ (* an operand is the point 0 *)
        exists (la * lb), (la * lb);
        split; [rewrite floor53_zero, ceil53_zero by nra; reflexivity |];
        split; [cbn [In]; tauto |]; split; [cbn [In]; tauto |];
        intros c [<- | [<- | [<- | [<- | []]]]]; nra
      | (* the signs name the two products *)
        eexists; eexists; split; [reflexivity |];
        split; [cbn [In]; tauto |]; split; [cbn [In]; tauto |];
        intros c [<- | [<- | [<- | [<- | []]]]]; nra
      | (* both operands of both signs *)
        destruct (hull4_Fin (la * lb) (la * hb) (ha * lb) (ha * hb))
          as (lo & hi & -> & Ilo & Ihi & Hall);
        exists lo, hi; cbn [fst snd round_num];
        split; [reflexivity |]; split; [exact Ilo |]; split; [exact Ihi |];
        exact Hall ].
Qed.

(** mpmath's quotient of two bounded intervals, the divisor being away
    from 0: the smallest of the four quotients of the ends, rounded
    down, and the largest, rounded up. *)
Lemma mpi_div_Fin (la ha lb hb : Q) :
  la <= ha -> lb <= hb -> 0 < lb \/ hb < 0 ->
  exists m M,
    mpi_div (Fin la, Fin ha) (Fin lb, Fin hb) = (Fin (floor53 m), Fin (ceil53 M))
    /\ In m (corners Qdiv la ha lb hb) /\ In M (corners Qdiv la ha lb hb)
    /\ forall c, In c (corners Qdiv la ha lb hb) -> m <= c <= M.
Proof.
  intros Ha Hb Hz.
  assert (I : / hb <= / lb) by (apply Qinv_anti; assumption).
  assert (J : (0 < lb /\ 0 < / hb) \/ (hb < 0 /\ / lb < 0)).
  { destruct Hz as [P | N].
    - left. split; [exact P | apply Qinv_lt_0_compat; lra].
    - right. split; [exact N |].
      assert (E : / lb == - / - lb) by (field; lra).
      assert (P : 0 < / - lb) by (apply Qinv_lt_0_compat; lra). lra. }
  clear Hz. unfold mpi_div, mpi_div_nonneg, mpi_neg, corners.
  cbn [num_sign num_neg fst snd].
  destruct J as [[Hz J] | [Hz J]];
    destruct (Qcompare_spec la 0) as [A1 | A1 | A1];
    destruct (Qcompare_spec ha 0) as [A2 | A2 | A2];
    try (exfalso; lra);
    destruct (Qcompare_spec lb 0) as [B1 | B1 | B1];
    try (exfalso; lra);
    destruct (Qcompare_spec hb 0) as [B2 | B2 | B2];
    try (exfalso; lra);
    cbn [is_zero is_neg is_pos andb orb negb num_sign];
    try (destruct (Qcompare_spec (- hb) 0) as [C1 | C1 | C1];
         try (exfalso; lra);
         destruct (Qcompare_spec (- ha) 0) as [C2 | C2 | C2];
         try (exfalso; lra);
         destruct (Qcompare_spec (- la) 0) as [C3 | C3 | C3];
         try (exfalso; lra));
    cbn [is_zero is_neg is_pos andb orb negb
         num_div floor_end ceil_end or_nan round_num];
    first
      [ (* the numerator is the point 0 *)
        exists (la / lb), (la / lb);
        split; [rewrite floor53_zero, ceil53_zero by (rewrite A1; field; lra);
                reflexivity |];
        split; [cbn [In]; tauto |]; split; [cbn [In]; tauto |];
        unfold Qdiv; intros c [<- | [<- | [<- | [<- | []]]]]; nra
      | (* a positive divisor *)
        eexists; eexists; split; [reflexivity |];
        split; [cbn [In]; tauto |]; split; [cbn [In]; tauto |];
        unfold Qdiv; intros c [<- | [<- | [<- | [<- | []]]]]; nra
      | (* a negative divisor: both operands are negated first *)
        match goal with
        | |- exists m M,
               (Fin (floor53 (- ?x / - ?y)), Fin (ceil53 (- ?u / - ?v))) = _ /\ _ =>
            exists (x / y), (u / v);
            split; [rewrite (floor53_eq (- x / - y) (x / y)) by (field; lra);
                    rewrite (ceil53_eq (- u / - v) (u / v)) by (field; lra);
                    reflexivity |]
        end;
        split; [cbn [In]; tauto |]; split; [cbn [In]; tauto |];
        unfold Qdiv; intros c [<- | [<- | [<- | [<- | []]]]]; nra ].
Qed.

(** X12. Multiplication on two cuts that are bounded intervals hands
    mpmath the two pairs of ends and wraps its product: the smallest of
    the four products of the ends rounded down, and the largest rounded
    up.  When these two are within the range of Python's floats, the
    entity has this interval as its cut at every level, and the product
    of a point of A's cut and a point of B's cut lies in it. *)
Theorem multiplyX_encloses_products (A B : Xmu.t) (alpha la ha lb hb : Q) :
  bounded_cut A alpha la ha -> bounded_cut B alpha lb hb ->
  exists m M,
    In m (corners Qmult la ha lb hb) /\ In M (corners Qmult la ha lb hb)
    /\ (forall c, In c (corners Qmult la ha lb hb) -> m <= c <= M)
    /\ multiplyX A B alpha
       = Returned (Some (wrap A (as_floats (Fin (floor53 m), Fin (ceil53 M)))))
    /\ (exact_float (floor53 m) -> exact_float (ceil53 M) ->
        let P := wrap A (as_floats (Fin (floor53 m), Fin (ceil53 M))) in
        (forall level z, contains (Xmu.get_xequals P) level z = true
                         <-> floor53 m <= z <= ceil53 M)
        /\ (forall x y,
              contains (Xmu.get_xequals A) alpha x = true ->
              contains (Xmu.get_xequals B) alpha y = true ->
              contains (Xmu.get_xequals P) alpha (x * y) = true)).
Proof.
  intros HA HB. unfold multiplyX.
  rewrite (arithmetical_bounded _ A B alpha la ha lb hb HA HB).
  pose proof (bounded_cut_le A alpha la ha HA) as Ha.
  pose proof (bounded_cut_le B alpha lb hb HB) as Hb.
  destruct (mpi_mul_Fin la ha lb hb Ha Hb) as (m & M & -> & Im & IM & Hall).
  exists m, M.
  split; [exact Im |]. split; [exact IM |]. split; [exact Hall |].
  split; [reflexivity |]. cbv zeta. intros Fm FM. split.
  - intros level z. now apply contains_wrap.
  - intros x y Hx Hy. apply contains_wrap; trivial.
    apply (bounded_cut_mem A alpha la ha) in Hx; [| exact HA].
    apply (bounded_cut_mem B alpha lb hb) in Hy; [| exact HB].
    pose proof (floor53_near m) as [_ L]. pose proof (ceil53_near M) as [U _].
    assert (E : m <= x * y <= M).
    { apply (bilinear_between la ha lb hb x y m M Hx Hy);
        apply Hall; cbn [In corners]; tauto. }
    lra.
Qed.

Lemma multiplyX_encloses_products_witness :
  exists P,
    multiplyX (triangular universe_pm10 (-3) (-1) 1) (triangular universe_pm10 1 2 3)
      (1 # 2)
    = Returned (Some P)
    /\ (forall level z, contains (Xmu.get_xequals P) level z = true
                        <-> -5 <= z <= 0).
Proof.
  assert (HA : bounded_cut (triangular universe_pm10 (-3) (-1) 1) (1 # 2) (-2) 0)
    by (eexists; split; [| split]; vm_compute; reflexivity).
  assert (HB : bounded_cut (triangular universe_pm10 1 2 3) (1 # 2) (3 # 2) (5 # 2))
    by (eexists; split; [| split]; vm_compute; reflexivity).
  destruct (multiplyX_encloses_products _ _ _ _ _ _ _ HA HB)
    as (m & M & Im & IM & Hall & HP & Hcut).
  assert (Em : m == -5).
  { pose proof (Hall _ (or_intror (or_introl eq_refl))) as H1.
    cbv [corners In] in Im.
    destruct Im as [<- | [<- | [<- | [<- | []]]]]; lra. }
  assert (EM : M == 0).
  { pose proof (Hall _ (or_intror (or_intror (or_introl eq_refl)))) as H1.
    cbv [corners In] in IM.
    destruct IM as [<- | [<- | [<- | [<- | []]]]]; lra. }
  assert (Fm : floor53 m = -5)
    by (rewrite (floor53_eq m (-5) Em); vm_compute; reflexivity).
  assert (FM : ceil53 M = 0)
    by (rewrite (ceil53_eq M 0 EM); vm_compute; reflexivity).
  eexists. split; [exact HP |].
  intros level z.
  destruct Hcut as [Hcut _];
    [rewrite Fm; vm_compute; reflexivity | rewrite FM; vm_compute; reflexivity |].
  rewrite Hcut, Fm, FM. reflexivity.
Defined.

(** X13. Division on two cuts that are bounded intervals, the divisor's
    lying wholly above or wholly below 0, hands mpmath the two pairs of
    ends and wraps its quotient: the smallest of the four quotients of
    the ends rounded down, and the largest rounded up.  When these two
    are within the range of Python's floats, the entity has this
    interval as its cut at every level, and the quotient of a point of
    A's cut by a point of B's cut lies in it. *)
Theorem divX_encloses_quotients (A B : Xmu.t) (alpha la ha lb hb : Q) :
  bounded_cut A alpha la ha -> bounded_cut B alpha lb hb ->
  0 < lb \/ hb < 0 ->
  exists m M,
    In m (corners Qdiv la ha lb hb) /\ In M (corners Qdiv la ha lb hb)
    /\ (forall c, In c (corners Qdiv la ha lb hb) -> m <= c <= M)
    /\ divX A B alpha
       = Returned (Some (wrap A (as_floats (Fin (floor53 m), Fin (ceil53 M)))))
    /\ (exact_float (floor53 m) -> exact_float (ceil53 M) ->
        let R := wrap A (as_floats (Fin (floor53 m), Fin (ceil53 M))) in
        (forall level z, contains (Xmu.get_xequals R) level z = true
                         <-> floor53 m <= z <= ceil53 M)
        /\ (forall x y,
              contains (Xmu.get_xequals A) alpha x = true ->
              contains (Xmu.get_xequals B) alpha y = true ->
              contains (Xmu.get_xequals R) alpha (x / y) = true)).
Proof.
  intros HA HB Hz. unfold divX.
  rewrite (arithmetical_bounded _ A B alpha la ha lb hb HA HB).
  pose proof (bounded_cut_le A alpha la ha HA) as Ha.
  pose proof (bounded_cut_le B alpha lb hb HB) as Hb.
  destruct (mpi_div_Fin la ha lb hb Ha Hb Hz) as (m & M & -> & Im & IM & Hall).
  exists m, M.
  split; [exact Im |]. split; [exact IM |]. split; [exact Hall |].
  split; [reflexivity |]. cbv zeta. intros Fm FM. split.
  - intros level z. now apply contains_wrap.
  - intros x y Hx Hy. apply contains_wrap; trivial.
    apply (bounded_cut_mem A alpha la ha) in Hx; [| exact HA].
    apply (bounded_cut_mem B alpha lb hb) in Hy; [| exact HB].
    pose proof (floor53_near m) as [_ L]. pose proof (ceil53_near M) as [U _].
    assert (Hk : / hb <= / y <= / lb).
    { split; apply Qinv_anti; lra. }
    assert (E : m <= x / y <= M).
    { unfold Qdiv.
      apply (bilinear_between la ha (/ hb) (/ lb) x (/ y) m M Hx Hk);
        apply Hall; cbn [In corners]; tauto. }
    lra.
Qed.

(** The quotient of [3, 5] by [1.5, 2.5]: the exact ends 6/5 and 10/3
    are no floats, and the result is the slightly wider interval between
    the floats below and above them. *)
Lemma divX_encloses_quotients_witness :
  exists R,
    divX (triangular universe_pm10 2 4 6) (triangular universe_pm10 1 2 3) (1 # 2)
    = Returned (Some R)
    /\ (forall level z, contains (Xmu.get_xequals R) level z = true
                        <-> floor53 (6 # 5) <= z <= ceil53 (10 # 3))
    /\ floor53 (6 # 5) < 6 # 5 /\ 10 # 3 < ceil53 (10 # 3).
Proof.
  assert (HA : bounded_cut (triangular universe_pm10 2 4 6) (1 # 2) 3 5)
    by (eexists; split; [| split]; vm_compute; reflexivity).
  assert (HB : bounded_cut (triangular universe_pm10 1 2 3) (1 # 2) (3 # 2) (5 # 2))
    by (eexists; split; [| split]; vm_compute; reflexivity).
  destruct (divX_encloses_quotients _ _ _ _ _ _ _ HA HB)
    as (m & M & Im & IM & Hall & HR & Hcut); [left; reflexivity |].
  assert (Em : m == 6 # 5).
  { pose proof (Hall _ (or_intror (or_introl eq_refl))) as [H1 _].
    assert (H2 : 3 / (5 # 2) == 6 # 5) by reflexivity.
    cbv [corners In] in Im.
    destruct Im as [<- | [<- | [<- | [<- | []]]]];
      first [reflexivity | exfalso; revert H1; apply Qlt_not_le; reflexivity]. }
  assert (EM : M == 10 # 3).
  { pose proof (Hall _ (or_intror (or_intror (or_introl eq_refl)))) as [_ H1].
    cbv [corners In] in IM.
    destruct IM as [<- | [<- | [<- | [<- | []]]]];
      first [reflexivity | exfalso; revert H1; apply Qlt_not_le; reflexivity]. }
  assert (Fm : floor53 m = floor53 (6 # 5)) by (apply floor53_eq; exact Em).
  assert (FM : ceil53 M = ceil53 (10 # 3)) by (apply ceil53_eq; exact EM).
  eexists. split; [exact HR |]. split; [| split; vm_compute; reflexivity].
  intros level z.
  destruct Hcut as [Hcut _];
    [rewrite Fm; vm_compute; reflexivity | rewrite FM; vm_compute; reflexivity |].
  rewrite Hcut, Fm, FM. reflexivity.
Defined.

(** ** What a result carries *)

(** An entity over the universe [U] whose membership function is the
    class default, 0 at every point. *)
Definition placeholder_over (U : Universe) (e : Xmu.t) : Prop :=
  Xmu.u e = U
  /\ Xmu.get_muequals e = Xmu.default_muequals
  /\ forall x, eval_piecewise (Xmu.get_muequals e) x = Some 0.

Lemma placeholder_mk (U : Universe) (f : SetExpr) :
  placeholder_over U (Xmu.mk U Xmu.default_muequals f).
Proof. repeat split. Qed.

Lemma differenceX_placeholder (A B d : Xmu.t) :
  differenceX A B = Returned d -> placeholder_over (Xmu.u A) d.
Proof.
  unfold differenceX, sympy_sub.
  destruct (sympy_complement (Xmu.get_xequals B)) as [[] | err];
    cbn [bind]; [| discriminate].
  rewrite BasicXmu_init_universe. intros H. injection H as <-.
  apply placeholder_mk.
Qed.

Lemma negateX_placeholder (A n : Xmu.t) :
  negateX A = Returned n -> placeholder_over (Xmu.u A) n.
Proof.
  unfold negateX, sympy_sub.
  destruct (sympy_complement (Xmu.get_xequals A)) as [[] | err];
    cbn [bind]; [| discriminate].
  rewrite BasicXmu_init_universe. intros H. injection H as <-.
  apply placeholder_mk.
Qed.

(** X14. Intersection and union always return; difference and negation
    return when SymPy has a complement for the alpha-cut function that
    is taken away (the target's, the receiver's).  What a set operation
    returns lives over the receiver's universe and carries the default
    membership function (0 everywhere), whatever the membership
    functions of the operands: only the alpha-cut function is
    combined. *)
Theorem set_operations_reset_membership (A B : Xmu.t) :
  (exists i u,
     intersectX A B = Returned i /\ unionX A B = Returned u
     /\ placeholder_over (Xmu.u A) i /\ placeholder_over (Xmu.u A) u)
  /\ (sympy_complement (Xmu.get_xequals B) = Returned tt ->
      exists d, differenceX A B = Returned d)
  /\ (sympy_complement (Xmu.get_xequals A) = Returned tt ->
      exists n, negateX A = Returned n)
  /\ (forall d, differenceX A B = Returned d -> placeholder_over (Xmu.u A) d)
  /\ (forall n, negateX A = Returned n -> placeholder_over (Xmu.u A) n).
Proof.
  split; [| split; [| split; [| split]]].
  - unfold intersectX, unionX. rewrite !BasicXmu_init_universe.
    do 2 eexists. do 2 (split; [reflexivity |]). split; apply placeholder_mk.
  - intros H. unfold differenceX. rewrite (sympy_sub_returns _ _ H). cbn [bind].
    rewrite BasicXmu_init_universe. eexists. reflexivity.
  - intros H. rewrite (negateX_returns A H). eexists. reflexivity.
  - intros d. apply differenceX_placeholder.
  - intros n. apply negateX_placeholder.
Qed.

Lemma set_operations_reset_membership_witness :
  let U := real_universe (Fin 0) (Fin 40) in
  let T1 := triangular U 0 10 20 in
  let T2 := triangular U 5 15 25 in
  exists d n,
    differenceX T1 T2 = Returned d /\ negateX T1 = Returned n
    /\ placeholder_over U d /\ placeholder_over U n.
Proof.
  intros U T1 T2.
  destruct (set_operations_reset_membership T1 T2) as (_ & Hd & Hn & Pd & Pn).
  destruct (Hd eq_refl) as (d & Ed). destruct (Hn eq_refl) as (n & En).
  exists d, n. split; [exact Ed |]. split; [exact En |].
  split; [exact (Pd d Ed) | exact (Pn n En)].
Defined.

(** An arithmetic call that returns an entity returns the wrapping of
    some interval. *)
Lemma arithmetical_returns_wrap (A B : Xmu.t) (alpha : Q)
    (operation : mpi -> mpi -> outcome mpi) (e : Xmu.t) :
  arithmeticalOperationX A B alpha operation = Returned (Some e) ->
  exists r, e = wrap A r.
Proof.
  unfold arithmeticalOperationX.
  destruct (negb (is_EmptySet (subs (Xmu.get_xequals A) alpha))
            && negb (is_EmptySet (subs (Xmu.get_xequals B) alpha)));
    [| discriminate].
  match goal with |- bind ?m _ = _ -> _ => destruct m as [r | err] end;
    cbn [bind]; [| discriminate].
  rewrite BasicXmu_init_universe. cbn [bind].
  intros H. exists (as_floats r). injection H as <-. reflexivity.
Qed.

(** The cut of a wrapped interval: the same at every level, and at most
    one piece. *)
Lemma cut_wrap (A : Xmu.t) (r : mpi) (alpha : Q) :
  cut (wrap A r) alpha
  = if num_ltb (snd r) (fst r) then []
    else if num_eqb (fst r) (snd r) then closed (snd r) (snd r)
    else closed (fst r) (snd r).
Proof.
  unfold cut, wrap, sympy_Interval. cbn [Xmu.get_xequals Xmu.xequals].
  destruct (num_ltb (snd r) (fst r)); [reflexivity |].
  destruct (num_eqb (fst r) (snd r)); cbn [subs];
    now rewrite !subs_bound_number.
Qed.

Lemma closed_not_union (lo hi : number) : class_of (closed lo hi) <> cls_Union.
Proof.
  rewrite closed_spec. destruct (num_leb lo hi).
  - apply single_piece_class.
  - discriminate.
Qed.

Lemma cut_wrap_not_union (A : Xmu.t) (r : mpi) (alpha : Q) :
  class_of (cut (wrap A r) alpha) <> cls_Union.
Proof.
  rewrite cut_wrap. destruct (num_ltb (snd r) (fst r)); [discriminate |].
  destruct (num_eqb (fst r) (snd r)); apply closed_not_union.
Qed.

(** On operands that are not unions a total operator always returns. *)
Lemma arithmetical_total_returns (f : mpi -> mpi -> mpi) (A B : Xmu.t) (alpha : Q) :
  class_of (cut A alpha) <> cls_Union -> class_of (cut B alpha) <> cls_Union ->
  exists r, arithmeticalOperationX A B alpha (total f) = Returned r.
Proof.
  intros UA UB.
  destruct (is_EmptySet (cut A alpha)) eqn:EA.
  - exists None. apply arithmetical_None_iff. now left.
  - destruct (is_EmptySet (cut B alpha)) eqn:EB.
    + exists None. apply arithmetical_None_iff. now right.
    + rewrite (arithmetical_not_union A B alpha _ EA UA EB UB).
      eexists. reflexivity.
Qed.

(** X15. The entity that an arithmetic operation returns (for any
    operator, the power included) lives over the receiver's universe,
    carries the default membership function, and is crisp: its alpha-cut
    is the same set at every level, never a union of several pieces.  It
    can therefore be an operand again: with an operand that is not a
    union, the four rational operators return on it at any level. *)
Theorem arithmetic_result_is_crisp (A B : Xmu.t) (alpha : Q)
    (operation : mpi -> mpi -> outcome mpi) (e : Xmu.t) :
  arithmeticalOperationX A B alpha operation = Returned (Some e) ->
  placeholder_over (Xmu.u A) e
  /\ (forall level1 level2, cut e level1 = cut e level2)
  /\ (forall level, class_of (cut e level) <> cls_Union)
  /\ (forall (C : Xmu.t) (level : Q),
        class_of (cut C level) <> cls_Union ->
        (exists r, addX e C level = Returned r)
        /\ (exists r, subX e C level = Returned r)
        /\ (exists r, multiplyX e C level = Returned r)
        /\ (exists r, divX e C level = Returned r)).
Proof.
  intros H. apply arithmetical_returns_wrap in H. destruct H as (r & ->).
  split; [apply placeholder_mk |]. split; [| split].
  - intros level1 level2. now rewrite !cut_wrap.
  - intros level. apply cut_wrap_not_union.
  - intros C level UC.
    unfold addX, subX, multiplyX, divX.
    repeat split; apply arithmetical_total_returns;
      solve [apply cut_wrap_not_union | exact UC].
Qed.

Lemma arithmetic_result_is_crisp_witness :
  let A := triangular universe_0_40 0 10 20 in
  let B := triangular universe_0_40 5 15 25 in
  exists S,
    addX A B (1 # 2) = Returned (Some S)
    /\ forall level1 level2, cut S level1 = cut S level2.
Proof.
  intros A B. eexists. split; [vm_compute; reflexivity |].
  apply (arithmetic_result_is_crisp A B (1 # 2) (total mpi_add)).
  vm_compute. reflexivity.
Defined.

(** ** Changing the control points of an entity *)

(** X16. [setAB] of the three classes that have it rebuilds both
    functions from the new control points: whatever the entity held
    before, it ends up as the entity that the constructor of its class
    returns over its universe with these control points, and the call
    returns the membership function and the alpha-cut function it now
    holds. *)
Theorem setAB_rebuilds (self : Xmu.t) (a b c d : Q) :
  (exists s p i,
     UpwardGradientXmu.setAB self a b = (s, (p, i))
     /\ UpwardGradientXmu.__init__ (universe_set (Xmu.u self)) (Some a) (Some b)
        = Returned s
     /\ Xmu.get_muequals s = p /\ Xmu.get_xequals s = i)
  /\ (exists s p i,
        DownwardGradientXmu.setAB self a b = (s, (p, i))
        /\ DownwardGradientXmu.__init__ (universe_set (Xmu.u self)) (Some a) (Some b)
           = Returned s
        /\ Xmu.get_muequals s = p /\ Xmu.get_xequals s = i)
  /\ (exists s p i,
        TrapezoidalXmu.setAB self a b c d = (s, (p, i))
        /\ TrapezoidalXmu.__init__ (universe_set (Xmu.u self))
             (Some a) (Some b) (Some c) (Some d)
           = Returned s
        /\ Xmu.get_muequals s = p /\ Xmu.get_xequals s = i).
Proof.
  rewrite upward_init, downward_init, trapezoidal_init.
  destruct self as [U mu xs]. split; [| split];
    do 3 eexists; (split; [reflexivity |]); repeat split.
Qed.

(** ** class Graph: the levels of a plot *)

(** The attributes [granularity] and [alphas] of a graph; the plotting
    handle and the universe are not touched by [set_granularity]. *)
Module Graph.

Record t : Type := mk {
  granularity : Z;
  alphas : list number
}.

(** How a call ends. *)
Inductive completion : Type :=
| Done
| ZeroDivisionError
| OverflowError.

(** [range(0, n)] *)
Definition range (n : Z) : list Z := map Z.of_nat (seq 0 (Z.to_nat n)).

(** [float(i)] of an int: the nearest float; an int beyond the range of
    the floats is refused ([None]). *)
Definition float_of_int (i : Z) : option Q :=
  match python_float (Fin (inject_Z i)) with
  | Fin v => Some v
  | _ => None
  end.

(** [p / q] on floats: raises on a zero divisor ([None]). *)
Definition float_div (p q : Q) : option number :=
  if Qeq_bool q 0 then None else Some (python_float (Fin (p / q))).

(** [[float(i)/float(g) for i in indices]] *)
Fixpoint comprehension (indices : list Z) (g : Z) : list number + completion :=
  match indices with
  | [] => inl []
  | i :: rest =>
      match float_of_int i, float_of_int g with
      | Some p, Some q =>
          match float_div p q with
          | None => inr ZeroDivisionError
          | Some v =>
              match comprehension rest g with
              | inl l => inl (v :: l)
              | inr c => inr c
              end
          end
      | _, _ => inr OverflowError
      end
  end.

(** [set_granularity(self, granularity)]: the attribute [granularity] is
    assigned first, [alphas] only once the whole list is built. *)
Definition set_granularity (self : t) (g : Z) : t * completion :=
  let self := mk g (alphas self) in
  match comprehension (range (g + 1)) (granularity self) with
  | inl l => (mk (granularity self) l, Done)
  | inr c => (self, c)
  end.

End Graph.

(** *** Floats of integers and their quotients *)

Lemma rounding_comp (r : Q -> Z) (x y : Q) : rounding r -> x == y -> r x = r y.
Proof.
  intros [Rm _] E. apply Z.le_antisymm; apply Rm; rewrite E; apply Qle_refl.
Qed.

Lemma round53_eq (q q' : Q) : q == q' -> round53 q = round53 q'.
Proof.
  apply round_signed_eq; intros x y E;
    now apply (rounding_comp nearest_even x y nearest_even_rounding).
Qed.

(** A positive number that takes no more than 53 bits is left as it is. *)
Lemma round_pos_grid (r : Q -> Z) (q : Q) (k : Z) :
  rounding r -> 0 < q -> q / pow2 (ilog2 q - 52) == inject_Z k ->
  round_pos r q == q.
Proof.
  intros R Hq E. rewrite round_pos_value.
  rewrite (rounding_comp r _ _ R E). destruct R as [_ Ri]. rewrite Ri, <- E.
  pose proof (pow2_pos (ilog2 q - 52)) as P. field. lra.
Qed.

(** An integer below 2^53 is a float. *)
Lemma is_float_Z (i : Z) : (0 <= i < 2 ^ 53)%Z -> is_float (inject_Z i).
Proof.
  intros [L U]. unfold is_float.
  destruct (Z.eq_dec i 0) as [-> | N]; [reflexivity |].
  assert (Hq : 0 < inject_Z i).
  { change 0 with (inject_Z 0). rewrite <- Zlt_Qlt. lia. }
  unfold round53, round_signed.
  assert (C : Qcompare (inject_Z i) 0 = Gt) by now apply Qgt_alt.
  rewrite C. set (e := ilog2 (inject_Z i)).
  destruct (ilog2_spec (inject_Z i) Hq) as [E1 _]. fold e in E1.
  assert (He : (e < 53)%Z).
  { apply (Qpower_lt_compat_l_inv 2); [| reflexivity].
    fold (pow2 e). fold (pow2 53).
    apply Qle_lt_trans with (inject_Z i); [exact E1 |].
    rewrite <- pow2_Z by lia. now rewrite <- Zlt_Qlt. }
  apply (round_pos_grid nearest_even (inject_Z i) (i * 2 ^ (52 - e)));
    [apply nearest_even_rounding | exact Hq |].
  fold e. rewrite inject_Z_mult, pow2_Z by lia.
  pose proof (pow2_pos (e - 52)) as P.
  assert (M : pow2 (52 - e) * pow2 (e - 52) == 1).
  { rewrite <- pow2_plus. now replace (52 - e + (e - 52))%Z with 0%Z by lia. }
  apply (Qmult_inj_r _ _ (pow2 (e - 52))); [lra |].
  transitivity (inject_Z i); [field; lra |].
  rewrite <- Qmult_assoc, M. ring.
Qed.

(** [float()] of a number in the normal range of the floats. *)
Lemma python_float_normal (q : Q) :
  pow2 (-1022) <= Qabs q -> - pow2 1024 < round53 q -> round53 q < pow2 1024 ->
  python_float (Fin q) = Fin (round53 q).
Proof.
  intros N L U. unfold python_float.
  apply Qle_bool_iff in N. rewrite N.
  destruct (Qle_bool (pow2 1024) (round53 q)) eqn:T1.
  { apply Qle_bool_iff in T1. lra. }
  destruct (Qle_bool (round53 q) (- pow2 1024)) eqn:T2.
  { apply Qle_bool_iff in T2. lra. }
  reflexivity.
Qed.

Lemma python_float_zero (q : Q) : q == 0 -> python_float (Fin q) = Fin 0.
Proof.
  intros E. unfold python_float.
  pose proof (pow2_pos (-1022)) as P1. pose proof (pow2_pos 1024) as P2.
  destruct (Qle_bool (pow2 (-1022)) (Qabs q)) eqn:T0.
  { apply Qle_bool_iff in T0. rewrite E in T0. change (Qabs 0) with 0 in T0. lra. }
  assert (Z0 : nearest_even (q * pow2 1074) = 0%Z).
  { rewrite (rounding_comp nearest_even _ (inject_Z 0) nearest_even_rounding).
    - apply nearest_even_rounding.
    - rewrite E. change (inject_Z 0) with 0. ring. }
  rewrite Z0.
  assert (V : Qred (inject_Z 0 * pow2 (-1074)) = 0).
  { transitivity (Qred 0); [| reflexivity]. apply Qred_complete.
    change (inject_Z 0) with 0. ring. }
  rewrite V.
  destruct (Qle_bool (pow2 1024) 0) eqn:T1.
  { apply Qle_bool_iff in T1. lra. }
  destruct (Qle_bool 0 (- pow2 1024)) eqn:T2.
  { apply Qle_bool_iff in T2. lra. }
  reflexivity.
Qed.

Lemma round53_one : round53 1 = 1.
Proof. vm_compute. reflexivity. Qed.

Lemma below_2_53 (i : Z) : (0 < i < 2 ^ 53)%Z ->
  1 <= inject_Z i /\ inject_Z i < pow2 53.
Proof.
  intros [L U]. split.
  - change 1 with (inject_Z 1). rewrite <- Zle_Qle. lia.
  - rewrite <- pow2_Z by lia. now rewrite <- Zlt_Qlt.
Qed.

(** [float(i)] of a small int is the int. *)
Lemma float_of_int_small (i : Z) :
  (0 <= i < 2 ^ 53)%Z ->
  exists p, Graph.float_of_int i = Some p /\ p == inject_Z i.
Proof.
  intros H. unfold Graph.float_of_int.
  destruct (Z.eq_dec i 0) as [-> | N].
  - exists 0. split; [| reflexivity].
    now rewrite (python_float_zero (inject_Z 0)).
  - destruct (below_2_53 i) as [L U]; [lia |].
    pose proof (is_float_Z i H) as F. unfold is_float in F.
    assert (P1 : pow2 (-1022) <= 1) by (apply (pow2_le (-1022) 0); lia).
    assert (P2 : pow2 53 <= pow2 1024) by (apply pow2_le; lia).
    pose proof (pow2_pos 1024) as P3.
    rewrite python_float_normal.
    + exists (round53 (inject_Z i)). split; [reflexivity | exact F].
    + rewrite Qabs_pos by lra. lra.
    + rewrite F. lra.
    + rewrite F. lra.
Qed.

(** The quotient of two floats [0 <= p <= q], [q] below 2^53: the float
    nearest to [p / q]. *)
Lemma float_div_level (p q : Q) :
  0 <= p -> p <= q -> 1 <= q -> q < pow2 53 -> (p == 0 \/ 1 <= p) ->
  Graph.float_div p q = Some (Fin (round53 (p / q))).
Proof.
  intros Hp Hpq Hq1 Hq2 Hint. unfold Graph.float_div.
  destruct (Qeq_bool q 0) eqn:Z; [apply Qeq_bool_iff in Z; lra |].
  f_equal. destruct Hint as [Z0 | P1].
  - assert (E : p / q == 0) by (rewrite Z0; field; lra).
    now rewrite (python_float_zero _ E), (round53_zero _ E).
  - assert (B : 0 < p / q <= 1).
    { split; [apply Qlt_shift_div_l; lra | apply Qle_shift_div_r; lra]. }
    assert (L : pow2 (-53) <= p / q).
    { apply Qle_shift_div_l; [lra |].
      assert (M : pow2 (-53) * pow2 53 == 1).
      { rewrite <- pow2_plus. reflexivity. }
      pose proof (pow2_pos (-53)) as P. nra. }
    assert (R1 : round53 (p / q) <= 1).
    { apply Qle_trans with (round53 1); [apply round53_mono; lra |].
      rewrite round53_one. apply Qle_refl. }
    assert (R0 : 0 <= round53 (p / q)) by (apply round53_nonneg; lra).
    assert (P1022 : pow2 (-1022) <= pow2 (-53)) by (apply pow2_le; lia).
    assert (P1024 : 1 < pow2 1024) by (apply (pow2_lt 0 1024); lia).
    apply python_float_normal.
    + rewrite Qabs_pos by lra. lra.
    + lra.
    + lra.
Qed.

Lemma comprehension_levels (indices : list Z) (g : Z) :
  (0 < g < 2 ^ 53)%Z -> (forall i, In i indices -> (0 <= i <= g)%Z) ->
  Graph.comprehension indices g
  = inl (map (fun i => Fin (round53 (inject_Z i / inject_Z g))) indices).
Proof.
  intros Hg. induction indices as [| i rest IH]; intros Hall;
    cbn [Graph.comprehension map]; [reflexivity |].
  assert (Hi : (0 <= i <= g)%Z) by (apply Hall; now left).
  destruct (float_of_int_small i) as (p & -> & Ep); [lia |].
  destruct (float_of_int_small g) as (q & -> & Eq); [lia |].
  destruct (below_2_53 g Hg) as [G1 G2].
  assert (I0 : 0 <= inject_Z i).
  { change 0 with (inject_Z 0). rewrite <- Zle_Qle. lia. }
  assert (Ig : inject_Z i <= inject_Z g) by (rewrite <- Zle_Qle; lia).
  assert (Ii : inject_Z i == 0 \/ 1 <= inject_Z i).
  { destruct (Z.eq_dec i 0) as [-> | N]; [left; reflexivity | right].
    change 1 with (inject_Z 1). rewrite <- Zle_Qle. lia. }
  rewrite float_div_level; rewrite ?Ep, ?Eq; trivial.
  rewrite IH by (intros j Hj; apply Hall; now right).
  do 3 f_equal. apply round53_eq. now rewrite Ep, Eq.
Qed.

(** X17. With a positive granularity g below 2^53 (every int up to g is
    then a float), [set_granularity] ends normally and leaves g + 1
    levels: the i-th is the float nearest to i / g.  The first is 0, the
    last is 1, all lie in [0, 1] and they do not decrease. *)
Theorem set_granularity_levels (self : Graph.t) (g : Z) :
  (0 < g < 2 ^ 53)%Z ->
  let level := fun i : Z => round53 (inject_Z i / inject_Z g) in
  exists l,
    Graph.set_granularity self g = (Graph.mk g l, Graph.Done)
    /\ length l = Z.to_nat (g + 1)
    /\ (forall i : nat, (Z.of_nat i <= g)%Z ->
                        nth i l (Fin 0) = Fin (level (Z.of_nat i)))
    /\ (forall i, (0 <= i <= g)%Z -> 0 <= level i <= 1)
    /\ (forall i j, (0 <= i <= j)%Z -> level i <= level j)
    /\ nth 0 l (Fin 0) = Fin 0 /\ nth (Z.to_nat g) l (Fin 0) = Fin 1.
Proof.
  intros Hg level. unfold Graph.set_granularity. cbn [Graph.granularity].
  assert (Hr : forall i, In i (Graph.range (g + 1)) -> (0 <= i <= g)%Z).
  { intros i Hi. unfold Graph.range in Hi. apply in_map_iff in Hi.
    destruct Hi as (n & <- & Hn). apply in_seq in Hn. lia. }
  rewrite (comprehension_levels _ g Hg Hr).
  exists (map (fun i => Fin (level i)) (Graph.range (g + 1))).
  split; [reflexivity |].
  destruct (below_2_53 g Hg) as [G1 G2].
  assert (Hlen : length (Graph.range (g + 1)) = Z.to_nat (g + 1)).
  { unfold Graph.range. now rewrite length_map, length_seq. }
  assert (Hnth : forall i : nat, (Z.of_nat i <= g)%Z ->
                 nth i (map (fun i => Fin (level i)) (Graph.range (g + 1))) (Fin 0)
                 = Fin (level (Z.of_nat i))).
  { intros i Hi.
    assert (Hlt : (i < Z.to_nat (g + 1))%nat) by lia.
    set (F := fun i : Z => Fin (level i)).
    rewrite (nth_indep _ (Fin 0) (F 0%Z)) by (now rewrite length_map, Hlen).
    rewrite map_nth. unfold Graph.range.
    rewrite (nth_indep _ 0%Z (Z.of_nat 0))
      by (now rewrite length_map, length_seq).
    rewrite map_nth, seq_nth by exact Hlt. reflexivity. }
  assert (Hmono : forall i j, (i <= j)%Z -> level i <= level j).
  { intros i j Hij. unfold level. apply round53_mono.
    apply Qmult_le_compat_r.
    - now rewrite <- Zle_Qle.
    - apply Qinv_le_0_compat. lra. }
  assert (L0 : level 0%Z = 0).
  { unfold level. apply round53_zero. field. lra. }
  assert (L1 : level g = 1).
  { unfold level. rewrite <- round53_one. apply round53_eq. field. lra. }
  split; [now rewrite length_map |]. split; [exact Hnth |].
  split; [| split; [| split]].
  - intros i Hi. rewrite <- L0 at 1. rewrite <- L1.
    split; apply Hmono; lia.
  - intros i j Hij. apply Hmono. lia.
  - rewrite (Hnth 0%nat) by lia. cbn [Z.of_nat]. now rewrite L0.
  - rewrite (Hnth (Z.to_nat g)) by lia. rewrite Z2Nat.id by lia. now rewrite L1.
Qed.

(** Four steps: the levels 0, 1/4, 1/2, 3/4 and 1. *)
Lemma set_granularity_levels_witness :
  exists l,
    Graph.set_granularity (Graph.mk 100 []) 4 = (Graph.mk 4 l, Graph.Done)
    /\ length l = 5%nat
    /\ nth 1 l (Fin 0) = Fin (round53 (1 / 4)).
Proof.
  destruct (set_granularity_levels (Graph.mk 100 []) 4) as (l & Hl & Hlen & Hn & _).
  - split; reflexivity.
  - exists l. split; [exact Hl |]. split; [exact Hlen |].
    apply (Hn 1%nat). discriminate.
Defined.

(** X18. The two edges of [set_granularity]: a granularity of 0 raises a
    division by zero, after the attribute [granularity] has been set and
    with the levels left as they were; a negative granularity ends
    normally with no level at all. *)
Theorem set_granularity_not_positive (self : Graph.t) (g : Z) :
  (g <= 0)%Z ->
  Graph.set_granularity self g
  = if (g =? 0)%Z then (Graph.mk 0 (Graph.alphas self), Graph.ZeroDivisionError)
    else (Graph.mk g [], Graph.Done).
Proof.
  intros Hg. destruct (g =? 0)%Z eqn:E.
  - apply Z.eqb_eq in E. subst g.
    assert (C : Graph.comprehension (Graph.range (0 + 1)) 0
                = inr Graph.ZeroDivisionError) by (vm_compute; reflexivity).
    unfold Graph.set_granularity. cbn [Graph.granularity]. now rewrite C.
  - apply Z.eqb_neq in E. unfold Graph.set_granularity, Graph.range.
    assert (N : Z.to_nat (g + 1) = 0%nat).
    { lia. }
    rewrite N. reflexivity.
Qed.

Lemma set_granularity_not_positive_witness :
  Graph.set_granularity (Graph.mk 100 [Fin 0; Fin 1]) 0
  = (Graph.mk 0 [Fin 0; Fin 1], Graph.ZeroDivisionError)
  /\ Graph.set_granularity (Graph.mk 100 [Fin 0; Fin 1]) (-3)
     = (Graph.mk (-3) [], Graph.Done).
Proof.
  split.
  - apply (set_granularity_not_positive (Graph.mk 100 [Fin 0; Fin 1]) 0). discriminate.
  - apply (set_granularity_not_positive (Graph.mk 100 [Fin 0; Fin 1]) (-3)). discriminate.
Defined.
